(** * JoiningDataProvider and DeferredDataProvider (Oracle JET v10.0.0)

    A shallow embedding of
      [ojjoiningdataprovider.js]  (client-side joins over data providers)
      [ojdeferreddataprovider.js] (a provider created from a promise)
    together with the properties of the join step, of the attribute
    partitioner and of the deferred adapter.

    Modelling conventions.
    - JavaScript values are a small universe [value]; numbers are integers.
    - A promise is modelled by its outcome: [Resolved v] or [Rejected e].
      An exception thrown inside a [then] callback is a rejection, so thrown
      errors and rejections share the type [outcome].
    - What a [then] callback finds depends on what happened while its promise
      was pending: the order in which concurrent fetches settle, and what
      other calls have assigned to the provider's fields in the meantime, are
      explicit parameters of the methods that wait ([schedule]).
    - Providers handed to the classes (base provider, joined providers, the
      value a deferred promise resolves to) are collaborators: they are
      records of functions, and every call made on them is recorded in an
      event log.
    - Objects that the code mutates and that the caller can still see (fetch
      parameter objects) live in a store indexed by locations. *)

From stdpp Require Import gmap strings list fin_maps.
From Stdlib Require Import ZArith.

Set Warnings "-register-all".

Local Open Scope string_scope.
Local Open Scope Z_scope.
Local Open Scope nat_scope.
Local Open Scope list_scope.

(** ** JavaScript values *)

Inductive value : Type :=
| VUndefined
| VNull
| VBool (b : bool)
| VNum (n : Z)
| VStr (s : string)
| VArr (elems : list value)
| VObj (fields : list (string * value)).

(** Equality of keys, by value: primitives by content, arrays element by
    element in order, objects field by field. *)
Fixpoint value_eqb (x y : value) {struct x} : bool :=
  match x, y with
  | VUndefined, VUndefined => true
  | VNull, VNull => true
  | VBool a, VBool b => Bool.eqb a b
  | VNum a, VNum b => Z.eqb a b
  | VStr a, VStr b => String.eqb a b
  | VArr xs, VArr ys =>
      (fix elems_eqb (xs ys : list value) {struct xs} : bool :=
         match xs, ys with
         | [], [] => true
         | a :: xs', b :: ys' => value_eqb a b && elems_eqb xs' ys'
         | _, _ => false
         end) xs ys
  | VObj fs, VObj gs =>
      (fix fields_eqb (fs gs : list (string * value)) {struct fs} : bool :=
         match fs, gs with
         | [], [] => true
         | (k, a) :: fs', (k', b) :: gs' =>
             String.eqb k k' && value_eqb a b && fields_eqb fs' gs'
         | _, _ => false
         end) fs gs
  | _, _ => false
  end.

(** ** Records (plain objects) and rows of a page *)

(** [r[f]]: the value of field [f], [undefined] when the field is absent. *)
Fixpoint get_field (r : list (string * value)) (f : string) : value :=
  match r with
  | [] => VUndefined
  | (k, v) :: r' => if String.eqb k f then v else get_field r' f
  end.

(** [r.hasOwnProperty(f)]. *)
Fixpoint has_field (r : list (string * value)) (f : string) : bool :=
  match r with
  | [] => false
  | (k, _) :: r' => String.eqb k f || has_field r' f
  end.

(** [r[f] = v]: overwrite the field in place, or add it after the others. *)
Fixpoint set_field (r : list (string * value)) (f : string) (v : value)
  : list (string * value) :=
  match r with
  | [] => [(f, v)]
  | (k, w) :: r' => if String.eqb k f then (k, v) :: r' else (k, w) :: set_field r' f v
  end.

(** A row of a page is an object or [null] ([None]). *)
Definition row_value (r : option (list (string * value))) : value :=
  match r with
  | Some fs => VObj fs
  | None => VNull
  end.

(** ** Outcomes of promises and of code that may throw *)

Inductive error : Type :=
| TypeError (what : string)   (* raised by the engine: property access on null ... *)
| Error (message : string)    (* [throw new Error(message)] *)
| Failure (reason : value).   (* a collaborator's rejection *)

Inductive outcome (A : Type) : Type :=
| Resolved (a : A)
| Rejected (e : error).

Arguments Resolved {A} a.
Arguments Rejected {A} e.

Definition bind {A B : Type} (o : outcome A) (k : A -> outcome B) : outcome B :=
  match o with
  | Resolved a => k a
  | Rejected e => Rejected e
  end.

Notation "x <- o ;; k" := (bind o (fun x => k))
  (at level 100, o at next level, right associativity).

(** ** Keyed results *)

Record Item (D : Type) : Type := mkItem { metadata : value; data : D }.
Arguments mkItem {D} metadata data.
Arguments metadata {D} i.
Arguments data {D} i.

(** Modelled from the spec: the keyed map of the framework ([ojMap], module
    [ojs/ojmap], not among the sources) holding at most one entry per key and
    matching keys "by equality on the key value (exact match on the lookup
    key, including composite/array-shaped keys)". *)
Fixpoint keymap_get {V : Type} (m : list (value * V)) (k : value) : option V :=
  match m with
  | [] => None
  | (k', v) :: m' => if value_eqb k' k then Some v else keymap_get m' k
  end.

(** Modelled from the spec: [set] of the same keyed map, which replaces the
    item of a key it holds and adds the key otherwise. *)
Fixpoint keymap_set {V : Type} (m : list (value * V)) (k : value) (v : V)
  : list (value * V) :=
  match m with
  | [] => [(k, v)]
  | (k', w) :: m' =>
      if value_eqb k' k then (k', v) :: m' else (k', w) :: keymap_set m' k v
  end.

(** What a provider's [fetchByKeys] resolves to; [results] may be missing. *)
Record FetchByKeysResults (D : Type) : Type :=
  mkFetchByKeysResults { results : option (list (value * Item D)) }.
Arguments mkFetchByKeysResults {D} results.
Arguments results {D} f.

(** ** Attribute requests

    What an [attributes] entry of a fetch request can hold: a field name, a
    nested [{name, attributes}] object, a list, or nothing.  The same
    universe describes what the partitioner stores and forwards. *)

Inductive attrval : Type :=
| AName (s : string)
| ANested (name : string) (attributes : attrval)
| AList (l : list attrval)
| AUndefined
| ANull.

(** [a != undefined]. *)
Definition attr_defined (a : attrval) : bool :=
  match a with
  | AUndefined | ANull => false
  | _ => true
  end.

(** Whether [a.concat] is callable: strings and arrays have [concat],
    plain objects do not. *)
Definition has_concat (a : attrval) : bool :=
  match a with
  | AName _ | AList _ => true
  | _ => false
  end.

(** The comparison made by [Array.prototype.includes]: primitives by
    content, arrays and objects by identity.  An array or object built by one
    party is never the one built by another, so they never compare equal. *)
Definition same_value_zero (a b : attrval) : bool :=
  match a, b with
  | AName s, AName t => String.eqb s t
  | AUndefined, AUndefined => true
  | ANull, ANull => true
  | _, _ => false
  end.

Definition includes (l : list attrval) (a : attrval) : bool :=
  existsb (fun b => same_value_zero b a) l.

(** [arr[i] = x] on a JavaScript array: overwrite inside the array, append
    at its end, and pad with [undefined] when writing further out. *)
Definition array_set (arr : list attrval) (i : nat) (x : attrval) : list attrval :=
  if decide (i < length arr) then <[i := x]> arr
  else arr ++ replicate (i - length arr) AUndefined ++ [x].

(** ** Fetch parameter objects and the store that holds them *)

Module Params.
Record t : Type := mk {
  attributes : option (list attrval);
  keys : option (list value);
  scope : value;
  clientId : value;
  filterCriterion : value;
  offset : value;
  size : value;
  sortCriteria : value
}.
End Params.

(** ** Collaborating providers *)

Record FetchByKeysCapability : Type := mkCapability { implementation : string }.

(** The object literal handed to a joined provider's [fetchByKeys]:
    [{ keys }] or [{ keys, attributes }]. *)
Record JoinFetchParameters : Type := mkJoinFetch {
  jf_keys : option (list value);
  jf_attributes : option attrval
}.

(** A joined provider, as far as the join step uses it. *)
Record DataProvider : Type := mkDataProvider {
  dp_getCapability : string -> option FetchByKeysCapability;
  dp_fetchByKeys : JoinFetchParameters -> outcome (option (FetchByKeysResults value))
}.

Inductive foreignKeyDescriptor : Type :=
| FKField (f : string)
| FKFields (fs : list string).

Module Info.
Record foreignKeyMapping : Type := mkMapping {
  foreignKey : option string;
  foreignKeys : option (list string);
  transform : option (list (string * value) -> value)
}.
(** [joinInfo.foreignKeyMapping] may be missing, as may the provider. *)
Record t : Type := mk {
  mapping : option foreignKeyMapping;
  joinedDataProvider : option DataProvider
}.
End Info.

(** [options.joins]: alias to join information, in [Object.keys] order. *)
Record DataProviderOptions : Type := mkOptions {
  joins : option (list (string * option Info.t))
}.

(** ** The provider's own state *)

Record JoiningDataProvider : Type := mkJoining {
  options : DataProviderOptions;
  _joinAlias : list string;
  _fks : list (option foreignKeyDescriptor);
  _transform : list (option (list (string * value) -> value));
  _joinDPs : list (option DataProvider);
  _mapJoinAttributes : option (gmap string attrval)
}.

Definition with_map (this : JoiningDataProvider) (m : option (gmap string attrval))
  : JoiningDataProvider :=
  {| options := options this; _joinAlias := _joinAlias this; _fks := _fks this;
     _transform := _transform this; _joinDPs := _joinDPs this;
     _mapJoinAttributes := m |}.

(** *** Constructor: [_getJoinSpec] *)

Definition fk_of_mapping (m : Info.foreignKeyMapping) : option foreignKeyDescriptor :=
  match Info.foreignKey m with
  | Some f => Some (FKField f)
  | None =>
      match Info.foreignKeys m with
      | Some fs => Some (FKFields fs)
      | None => None
      end
  end.

(** [arr[i] = x] on an array whose missing entries read as [hole]:
    overwrite inside the array, append at its end, and leave holes when
    writing further out. *)
Definition array_put {A : Type} (hole : A) (arr : list A) (i : nat) (x : A) : list A :=
  if decide (i < length arr) then <[i := x]> arr
  else arr ++ replicate (i - length arr) hole ++ [x].

(** The three arrays filled by the loop of [_getJoinSpec].  An entry that
    is [null], [undefined] or a hole is [None]: the code compares entries
    with [!= null] and [!= undefined] only. *)
Record join_spec : Type := mkJoinSpec {
  js_fks : list (option foreignKeyDescriptor);
  js_transform : list (option (list (string * value) -> value));
  js_joinDPs : list (option DataProvider)
}.

(** One round of the loop of [_getJoinSpec].  Reading
    [joinInfo.foreignKeyMapping.foreignKey] throws when the join information
    has no [foreignKeyMapping].  When the join information itself is missing,
    [_transform[i]] is not written. *)
Definition join_spec_step (i : nat) (s : join_spec) (joinInfo : option Info.t)
  : outcome join_spec :=
  match joinInfo with
  | Some info =>
      match Info.mapping info with
      | None => Rejected (TypeError "joinInfo.foreignKeyMapping.foreignKey")
      | Some m =>
          Resolved (mkJoinSpec
                      (array_put None (js_fks s) i (fk_of_mapping m))
                      (array_put None (js_transform s) i (Info.transform m))
                      (array_put None (js_joinDPs s) i (Info.joinedDataProvider info)))
      end
  | None =>
      Resolved (mkJoinSpec (array_put None (js_fks s) i None)
                           (js_transform s)
                           (array_put None (js_joinDPs s) i None))
  end.

(** The loop of [_getJoinSpec], from index [i] on. *)
Fixpoint join_spec_loop (i : nat) (js : list (string * option Info.t)) (s : join_spec)
  : outcome join_spec :=
  match js with
  | [] => Resolved s
  | e :: rest => s' <- join_spec_step i s e.2 ;; join_spec_loop (S i) rest s'
  end.

(** [new JoiningDataProvider(base, options)], as far as its own fields go.
    [Object.keys(options.joins)] throws when [joins] is missing, and an
    exception in the loop leaves no provider. *)
Definition _getJoinSpec (opts : DataProviderOptions) : outcome JoiningDataProvider :=
  match joins opts with
  | None => Rejected (TypeError "Object.keys(options.joins)")
  | Some js =>
      s <- join_spec_loop 0 js (mkJoinSpec [] [] []) ;;
      Resolved {| options := opts;
                  _joinAlias := map fst js;
                  _fks := js_fks s;
                  _transform := js_transform s;
                  _joinDPs := js_joinDPs s;
                  _mapJoinAttributes := Some ∅ |}
  end.

(** ** AttributePartitioner: [_seperateBaseJoinAttributes] *)

(** [alias] and [attributes] of one requested attribute.  Reading [.name]
    of [undefined] or [null] throws; an array has neither property. *)
Definition classify (a : attrval) : outcome (option string * attrval) :=
  match a with
  | AName s => Resolved (Some s, AName s)
  | ANested n sub => Resolved (Some n, sub)
  | AList _ => Resolved (None, AUndefined)
  | AUndefined | ANull => Rejected (TypeError "attr.name")
  end.

(** Whether a requested attribute names [alias], and the value it carries
    for it (the variable [attributes] of the loop). *)
Definition names (alias : string) (a : attrval) : bool :=
  match classify a with
  | Resolved (Some s, _) => String.eqb s alias
  | _ => false
  end.

Definition carried (a : attrval) : attrval :=
  match classify a with
  | Resolved (_, v) => v
  | Rejected _ => AUndefined
  end.

(** Some attribute of [l] names [alias] and carries a defined value. *)
Definition later_defined (alias : string) (l : list attrval) : bool :=
  existsb (fun a => names alias a && attr_defined (carried a)) l.

(** The inner loop: is [alias] one of the declared join aliases? *)
Fixpoint bJoinAlias (alias : string) (joinAlias : list string) : bool :=
  match joinAlias with
  | [] => false
  | a :: rest => if String.eqb alias a then true else bJoinAlias alias rest
  end.

(** The partition being built: the join-attribute map, the base attribute
    array and the write index [iBase]. *)
Record partition : Type := mkPartition {
  pt_map : gmap string attrval;
  pt_base : list attrval;
  pt_iBase : nat
}.

(** One round of the first loop (one requested attribute). *)
Definition classify_step (joinAlias : list string) (p : partition) (a : attrval)
  : outcome partition :=
  c <- classify a ;;
  let attributes := c.2 in
  match c.1 with
  | Some alias =>
      if bJoinAlias alias joinAlias then
        match pt_map p !! alias with
        | Some stored =>
            if attr_defined attributes then
              let joinAttrs := if attr_defined stored then stored else AList [] in
              (* [joinAttrs.concat(attributes)]: its value is dropped *)
              if has_concat joinAttrs then
                Resolved (mkPartition (<[alias := joinAttrs]> (pt_map p))
                                      (pt_base p) (pt_iBase p))
              else Rejected (TypeError "joinAttrs.concat")
            else Resolved p
        | None =>
            Resolved (mkPartition (<[alias := attributes]> (pt_map p))
                                  (pt_base p) (pt_iBase p))
        end
      else
        Resolved (mkPartition (pt_map p)
                              (array_set (pt_base p) (pt_iBase p) attributes)
                              (S (pt_iBase p)))
  | None =>
      Resolved (mkPartition (pt_map p)
                            (array_set (pt_base p) (pt_iBase p) attributes)
                            (S (pt_iBase p)))
  end.

(** The first loop.  A round that throws has not yet written anything, so
    the partition reached so far is what remains when the loop is left by an
    exception. *)
Fixpoint classify_loop (joinAlias : list string) (p : partition) (origAttr : list attrval)
  : partition * option error :=
  match origAttr with
  | [] => (p, None)
  | a :: rest =>
      match classify_step joinAlias p a with
      | Resolved p' => classify_loop joinAlias p' rest
      | Rejected e => (p, Some e)
      end
  end.

Definition fk_attr (fk : option foreignKeyDescriptor) : attrval :=
  match fk with
  | Some (FKField f) => AName f
  | Some (FKFields fs) => AList (map AName fs)
  | None => ANull
  end.

(** One round of the second loop (one declared foreign key). *)
Definition fk_step (p : partition) (fk : option foreignKeyDescriptor) : partition :=
  if includes (pt_base p) (fk_attr fk) then p
  else
    match fk with
    | Some (FKFields fs) =>
        mkPartition (pt_map p) (pt_base p ++ map AName fs) (pt_iBase p)
    | _ =>
        mkPartition (pt_map p) (array_set (pt_base p) (pt_iBase p) (fk_attr fk))
                    (S (pt_iBase p))
    end.

Definition fk_loop (p : partition) (fks : list (option foreignKeyDescriptor)) : partition :=
  fold_left fk_step fks p.

(** [_seperateBaseJoinAttributes(params)]: the provider with its new
    [_mapJoinAttributes], and the base attribute list. *)
Definition _seperateBaseJoinAttributes (this : JoiningDataProvider) (origAttr : list attrval)
  : JoiningDataProvider * outcome (list attrval) :=
  match classify_loop (_joinAlias this) (mkPartition ∅ [] 0) origAttr with
  | (p, Some e) => (with_map this (Some (pt_map p)), Rejected e)
  | (p, None) =>
      let p' := fk_loop p (_fks this) in
      (with_map this (Some (pt_map p')), Resolved (pt_base p'))
  end.

(** ** Events: what the provider does to its collaborators *)

Inductive event : Type :=
| Warned (alias : string)
| JoinedFetchByKeys (alias : string) (p : JoinFetchParameters)
| BaseFetchFirst (p : option nat)
| BaseFetchByKeys (p : option nat)
| BaseFetchByOffset (p : option nat).

Definition is_joined_fetch (e : event) : bool :=
  match e with
  | JoinedFetchByKeys _ _ => true
  | _ => false
  end.

(** ** ForeignKeyResolver: [_getFKValues] *)

(** The object handed to a transform: the foreign-key fields of the row. *)
Definition transformParam (r : list (string * value)) (fk : foreignKeyDescriptor)
  : list (string * value) :=
  match fk with
  | FKFields fs => fold_left (fun o f => set_field o f (get_field r f)) fs []
  | FKField f => set_field [] f (get_field r f)
  end.

(** [vals[j]] for one row and one alias. *)
Definition fk_value (row : option (list (string * value)))
    (fk : option foreignKeyDescriptor)
    (tr : option (list (string * value) -> value)) : value :=
  match row, fk with
  | Some r, Some d =>
      match tr with
      | Some t => t (transformParam r d)
      | None =>
          match d with
          | FKFields fs => VArr (map (get_field r) fs)
          | FKField f => get_field r f
          end
      end
  | _, _ => VNull
  end.

Definition _getFKValues (baseData : list (option (list (string * value))))
    (fks : list (option foreignKeyDescriptor))
    (transform : list (option (list (string * value) -> value)))
  : list (list value) :=
  imap (fun i fk => map (fun row => fk_value row fk (mjoin (transform !! i))) baseData) fks.

(** ** [_fetchByKeyResultsToArray] and [_assignAliasData] *)

(** Writing [new] over the indices [0 .. length new - 1] of an array. *)
Definition overwrite_prefix {A : Type} (new old : list A) : list A :=
  new ++ drop (length new) old.

(** The arrays [metaData] and [data] after the call.  Nothing is written
    when the result, its [results] map, or the map's content is missing. *)
Definition _fetchByKeyResultsToArray {D : Type} (null : D)
    (result : option (FetchByKeysResults D)) (keyValues : option (list value))
    (metaData : list value) (data : list D) : outcome (list value * list D) :=
  match result with
  | None => Resolved (metaData, data)
  | Some r =>
      match results r with
      | None | Some [] => Resolved (metaData, data)
      | Some m =>
          match keyValues with
          | None => Rejected (TypeError "keyValues.length")
          | Some ks =>
              let item_meta k :=
                match keymap_get m k with
                | Some (mkItem item_metadata _) => item_metadata
                | None => VNull
                end in
              let item_data k :=
                match keymap_get m k with
                | Some (mkItem _ item_data) => item_data
                | None => null
                end in
              Resolved (overwrite_prefix (map item_meta ks) metaData,
                        overwrite_prefix (map item_data ks) data)
          end
      end
  end.

(** [aliasData[i]], [undefined] past the end of the array. *)
Definition array_get (arr : list value) (i : nat) : value :=
  default VUndefined (arr !! i).

(** Every non-null row gets its [alias] field set; [aliasData] is always
    an array at the only call site. *)
Definition _assignAliasData (baseData : list (option (list (string * value))))
    (alias : string) (aliasData : list value)
  : list (option (list (string * value))) :=
  imap (fun i row =>
          match row with
          | Some r => Some (set_field r alias (array_get aliasData i))
          | None => None
          end) baseData.

(** ** JoinExecutor: [_joiningData] *)

Definition warning (alias : string) (capability : option FetchByKeysCapability)
  : list event :=
  match capability with
  | None => [Warned alias]
  | Some c => if String.eqb (implementation c) "batchLookup" then [] else [Warned alias]
  end.

(** The first loop, from index [i] on: the events it causes and the array
    [promises] (an entry is [null] or the outcome of the fetch).  The
    capability is read from [joinDP] before [joinDP] is compared with
    [null], so a missing provider ends the loop with a [TypeError] and the
    branch [promises[i] = null] guarded by [joinDP == null] is never taken. *)
Fixpoint issue_fetches (this : JoiningDataProvider) (fkValues : list (list value))
    (i : nat) (aliases : list string)
  : list event * outcome (list (option (outcome (option (FetchByKeysResults value))))) :=
  match aliases with
  | [] => ([], Resolved [])
  | alias :: rest =>
      match mjoin (_joinDPs this !! i) with
      | None => ([], Rejected (TypeError "joinDP.getCapability"))
      | Some joinDP =>
          let warned := warning alias (dp_getCapability joinDP "fetchByKeys") in
          let '(called, promise) :=
            match _mapJoinAttributes this with
            | None =>
                let p := mkJoinFetch (fkValues !! i) None in
                ([JoinedFetchByKeys alias p], Some (dp_fetchByKeys joinDP p))
            | Some m =>
                match m !! alias with
                | None => ([], None)
                | Some attr =>
                    let p := mkJoinFetch (fkValues !! i) (Some attr) in
                    ([JoinedFetchByKeys alias p], Some (dp_fetchByKeys joinDP p))
                end
            end in
          let '(later, promises) := issue_fetches this fkValues (S i) rest in
          (warned ++ called ++ later, ps <- promises ;; Resolved (promise :: ps))
      end
  end.

(** *** What happens while the joined fetches are pending

    The fetches of one join step run concurrently, and the caller may start
    other fetches on the same provider before they have all settled.
    [settles i] is the instant at which [promises[i]] settles (promises given
    the same instant are taken in array order).  [written] is the value that
    [_mapJoinAttributes] was last given by a fetch started in the meantime,
    if there was one: every fetch method assigns that field before it calls
    the base provider. *)
Record schedule : Type := mkSchedule {
  settles : nat -> nat;
  written : option (option (gmap string attrval))
}.

(** The fetches settle in array order and no other fetch is started. *)
Definition in_turn : schedule := mkSchedule (fun _ => 0) None.

(** The provider as a callback finds it, after the last assignment to
    [_mapJoinAttributes] made in the meantime. *)
Definition seen_later (this : JoiningDataProvider)
    (w : option (option (gmap string attrval))) : JoiningDataProvider :=
  match w with
  | None => this
  | Some m => with_map this m
  end.

(** Among the promises from index [i] on, the rejected one that settles
    first: its instant and its error. *)
Fixpoint first_rejection {R : Type} (settle : nat -> nat) (i : nat)
    (promises : list (option (outcome R))) : option (nat * error) :=
  match promises with
  | [] => None
  | p :: rest =>
      let later := first_rejection settle (S i) rest in
      match p with
      | Some (Rejected e) =>
          match later with
          | Some (t, _) => if t <? settle i then later else Some (settle i, e)
          | None => Some (settle i, e)
          end
      | _ => later
      end
  end.

(** The value of an entry of a fulfilled [Promise.all]: a [null] entry is
    passed through. *)
Definition fulfilled {R : Type} (p : option (outcome R)) : option R :=
  match p with
  | Some (Resolved r) => Some r
  | _ => None
  end.

(** [Promise.all]: rejected with the error of the promise that is rejected
    first, and resolved to the values in array order when none is. *)
Definition promise_all {R : Type} (settle : nat -> nat)
    (promises : list (option (outcome R))) : outcome (list (option R)) :=
  match first_rejection settle 0 promises with
  | Some (_, e) => Rejected e
  | None => Resolved (map fulfilled promises)
  end.

(** Whether alias number [i] takes part in the merge. *)
Definition alias_selected (this : JoiningDataProvider) (i : nat) : bool :=
  match _mapJoinAttributes this with
  | None => true
  | Some m =>
      match _joinAlias this !! i with
      | Some alias => bool_decide (is_Some (m !! alias))
      | None => false
      end
  end.

(** The loop of the [then] callback, from index [i] on; [this] is the
    provider as the callback finds it.  [resultMetadata] and [resultData] are
    declared once, outside the loop, and are shared by all aliases. *)
Fixpoint merge_results (this : JoiningDataProvider) (fkValues : list (list value))
    (i : nat) (fetched : list (option (option (FetchByKeysResults value))))
    (resultMetadata resultData : list value)
    (baseData : list (option (list (string * value))))
  : outcome (list (option (list (string * value)))) :=
  match fetched with
  | [] => Resolved baseData
  | r :: rest =>
      if alias_selected this i then
        arrays <- _fetchByKeyResultsToArray VNull (mjoin r) (fkValues !! i)
                    resultMetadata resultData ;;
        merge_results this fkValues (S i) rest arrays.1 arrays.2
          (_assignAliasData baseData (default "undefined" (_joinAlias this !! i)) arrays.2)
      else merge_results this fkValues (S i) rest resultMetadata resultData baseData
  end.

(** [this] is the provider when the join step is called.  The first loop
    reads [_mapJoinAttributes] then; the callback of [Promise.all] reads it
    again when it runs, after whatever was assigned in the meantime. *)
Definition _joiningData (this : JoiningDataProvider) (sch : schedule)
    (baseData : option (list (option (list (string * value)))))
    (opts : DataProviderOptions)
  : list event * outcome (option (list (option (list (string * value))))) :=
  match baseData, joins opts with
  | None, _ | Some [], _ | _, None => ([], Resolved baseData)
  | Some rows, Some _ =>
      let fkValues := _getFKValues rows (_fks this) (_transform this) in
      let '(log, promises) := issue_fetches this fkValues 0 (_joinAlias this) in
      (log,
       ps <- promises ;;
       fetched <- promise_all (settles sch) ps ;;
       joined <- merge_results (seen_later this (written sch)) fkValues 0 fetched [] [] rows ;;
       Resolved (Some joined))
  end.

(** ** The base provider and the public fetch methods *)

(** [baseResult.value] of one step of the base iterator. *)
Record FetchListResult : Type := mkFetchListResult {
  fl_data : option (list (option (list (string * value))));
  fl_metadata : value
}.

Record IteratorResult : Type := mkIteratorResult {
  it_done : bool;
  it_value : option FetchListResult
}.

Record BaseByOffsetResults : Type := mkBaseByOffset {
  bo_results : option (list (Item (option (list (string * value)))));
  bo_done : bool
}.

(** The base provider.  It is handed a parameter object (or [undefined]);
    [base_fetchFirst p n] is what the [n]-th call of [next()] on the iterator
    of [fetchFirst(p)] resolves to. *)
Record BaseDataProvider : Type := mkBase {
  base_fetchFirst : option Params.t -> nat -> outcome (option IteratorResult);
  base_fetchByKeys :
    option Params.t -> outcome (option (FetchByKeysResults (option (list (string * value)))));
  base_fetchByOffset : option Params.t -> outcome (option BaseByOffsetResults)
}.

(** The object a reference denotes; [undefined] has none. *)
Definition deref (st : gmap nat Params.t) (params : option nat) : option Params.t :=
  params ≫= (st !!.).

Definition set_attributes (p : Params.t) (a : list attrval) : Params.t :=
  Params.mk (Some a) (Params.keys p) (Params.scope p) (Params.clientId p)
            (Params.filterCriterion p) (Params.offset p) (Params.size p)
            (Params.sortCriteria p).

(** What a fetch method leaves behind: the provider as the method itself
    leaves it when it returns its promise, the store, the calls made on
    collaborators, and what the method returns or resolves to. *)
Record call (A : Type) : Type := mkCall {
  c_this : JoiningDataProvider;
  c_store : gmap nat Params.t;
  c_log : list event;
  c_result : outcome A
}.
Arguments mkCall {A} c_this c_store c_log c_result.
Arguments c_this {A} c.
Arguments c_store {A} c.
Arguments c_log {A} c.
Arguments c_result {A} c.

(** [params && params.attributes]: the object and its attribute list when
    both are there. *)
Definition requested_attributes (p : option Params.t)
  : option (Params.t * list attrval) :=
  o ← p; origAttr ← Params.attributes o; Some (o, origAttr).

(** *** [fetchFirst] and the iterator it returns *)

Record JoiningAsyncIterable : Type := mkIterable {
  ji_params : option nat;
  ji_asyncIterator : nat -> outcome (option IteratorResult)
}.

Definition fetchFirst (base : BaseDataProvider) (this : JoiningDataProvider)
    (st : gmap nat Params.t) (params : option nat) : call JoiningAsyncIterable :=
  let baseParams := params in
  match params, deref st params with
  | Some l, Some p =>
      match Params.attributes p with
      | Some origAttr =>
          match _seperateBaseJoinAttributes this origAttr with
          | (this', Rejected e) => mkCall this' st [] (Rejected e)
          | (this', Resolved baseAttributes) =>
              let p' := set_attributes p baseAttributes in
              mkCall this' (<[l := p']> st) [BaseFetchFirst baseParams]
                     (Resolved (mkIterable params (base_fetchFirst base (Some p'))))
          end
      | None =>
          mkCall (with_map this None) st [BaseFetchFirst baseParams]
                 (Resolved (mkIterable params (base_fetchFirst base (Some p))))
      end
  | _, _ =>
      mkCall (with_map this None) st [BaseFetchFirst baseParams]
             (Resolved (mkIterable params (base_fetchFirst base (deref st params))))
  end.

(** The [n]-th [next()] of a [JoiningAsyncIterator] over [baseIterator];
    [this] is the provider as the callback finds it when the base iterator
    has resolved. *)
Definition next (this : JoiningDataProvider) (sch : schedule)
    (baseIterator : nat -> outcome (option IteratorResult)) (n : nat)
  : list event * outcome (option IteratorResult) :=
  match baseIterator n with
  | Rejected e => ([], Rejected e)
  | Resolved (Some (mkIteratorResult done (Some v))) =>
      let '(log, joined) := _joiningData this sch (fl_data v) (options this) in
      (log,
       joinedData <- joined ;;
       Resolved (Some (mkIteratorResult done
                         (Some (mkFetchListResult joinedData (fl_metadata v))))))
  | Resolved baseResult => ([], Resolved baseResult)
  end.

(** *** [fetchByKeys] *)

Record JoinedByKeysResults : Type := mkJoinedByKeys {
  jk_fetchParameters : option nat;
  jk_results : list (value * Item value)
}.

(** [joinData[i]] as the data of an item; indexing [undefined] throws. *)
Definition page_get (joinData : option (list (option (list (string * value))))) (i : nat)
  : outcome value :=
  match joinData with
  | None => Rejected (TypeError "joinData[i]")
  | Some rows =>
      Resolved (match rows !! i with
                | Some r => row_value r
                | None => VUndefined
                end)
  end.

(** The second [params.keys.forEach]: one [results.set] per requested key. *)
Fixpoint collect_items (keys : list value) (i : nat) (metaData : list value)
    (joinData : option (list (option (list (string * value)))))
    (acc : list (value * Item value)) : outcome (list (value * Item value)) :=
  match keys with
  | [] => Resolved acc
  | key :: rest =>
      d <- page_get joinData i ;;
      collect_items rest (S i) metaData joinData
        (keymap_set acc key (mkItem (array_get metaData i) d))
  end.

(** The [then] callback of [fetchByKeys]; [this] is the provider as the
    callback finds it. *)
Definition fetchByKeys_then (this : JoiningDataProvider) (sch : schedule)
    (params : option nat)
    (p : option Params.t)
    (baseResults : option (FetchByKeysResults (option (list (string * value)))))
  : list event * outcome (option JoinedByKeysResults) :=
  match baseResults with
  | Some (mkFetchByKeysResults (Some m)) =>
      match p ≫= Params.keys with
      | None => ([], Rejected (TypeError "params.keys.forEach"))
      | Some keyValues =>
          match _fetchByKeyResultsToArray None baseResults (Some keyValues) [] [] with
          | Rejected e => ([], Rejected e)
          | Resolved (metaData, rows) =>
              let '(log, joined) := _joiningData this sch (Some rows) (options this) in
              (log,
               joinData <- joined ;;
               items <- collect_items keyValues 0 metaData joinData [] ;;
               Resolved (Some (mkJoinedByKeys params items)))
          end
      end
  | _ => ([], Resolved None)
  end.

(** [pending] is what was last assigned to [_mapJoinAttributes] by a
    fetch started while the base provider's promise was pending, if there
    was one; [sch] describes the join step run by the callback. *)
Definition fetchByKeys (base : BaseDataProvider) (this : JoiningDataProvider)
    (st : gmap nat Params.t) (params : option nat)
    (pending : option (option (gmap string attrval))) (sch : schedule)
  : call (option JoinedByKeysResults) :=
  let p := deref st params in
  match requested_attributes p with
  | Some (o, origAttr) =>
      match _seperateBaseJoinAttributes this origAttr with
      | (this', Rejected e) => mkCall this' st [] (Rejected e)
      | (this', Resolved baseAttributes) =>
          let fresh_loc := fresh (dom st) in
          let baseParams :=
            Params.mk (Some baseAttributes) (Params.keys o) (Params.scope o)
                      VUndefined VUndefined VUndefined VUndefined VUndefined in
          let st' := <[fresh_loc := baseParams]> st in
          match base_fetchByKeys base (Some baseParams) with
          | Rejected e => mkCall this' st' [BaseFetchByKeys (Some fresh_loc)] (Rejected e)
          | Resolved baseResults =>
              let '(log, r) :=
                fetchByKeys_then (seen_later this' pending) sch params p baseResults in
              mkCall this' st' (BaseFetchByKeys (Some fresh_loc) :: log) r
          end
      end
  | None =>
      let this' := with_map this None in
      match base_fetchByKeys base p with
      | Rejected e => mkCall this' st [BaseFetchByKeys params] (Rejected e)
      | Resolved baseResults =>
          let '(log, r) :=
            fetchByKeys_then (seen_later this' pending) sch params p baseResults in
          mkCall this' st (BaseFetchByKeys params :: log) r
      end
  end.

(** *** [fetchByOffset] *)

Record JoinedByOffsetResults : Type := mkJoinedByOffset {
  jo_fetchParameters : option nat;
  jo_results : list (Item value);
  jo_done : bool
}.

(** The second loop of the callback: [resultArray[i]] for [i] below
    [baseResult.results.length]. *)
Fixpoint collect_array (n i : nat) (metaData : list value)
    (joinData : option (list (option (list (string * value)))))
  : outcome (list (Item value)) :=
  match n with
  | 0 => Resolved []
  | S n' =>
      d <- page_get joinData i ;;
      rest <- collect_array n' (S i) metaData joinData ;;
      Resolved (mkItem (array_get metaData i) d :: rest)
  end.

(** The [then] callback of [fetchByOffset]; [this] is the provider as the
    callback finds it. *)
Definition fetchByOffset_then (this : JoiningDataProvider) (sch : schedule)
    (params : option nat) (baseResult : option BaseByOffsetResults)
  : list event * outcome (option JoinedByOffsetResults) :=
  match baseResult with
  | None => ([], Rejected (TypeError "baseResult.results"))
  | Some (mkBaseByOffset None _) => ([], Resolved None)
  | Some (mkBaseByOffset (Some items) done) =>
      let metaData := map metadata items in
      let rows := map data items in
      let '(log, joined) := _joiningData this sch (Some rows) (options this) in
      (log,
       joinData <- joined ;;
       resultArray <- collect_array (length items) 0 metaData joinData ;;
       Resolved (Some (mkJoinedByOffset params resultArray done)))
  end.

(** [pending] and [sch] are as for [fetchByKeys]. *)
Definition fetchByOffset (base : BaseDataProvider) (this : JoiningDataProvider)
    (st : gmap nat Params.t) (params : option nat)
    (pending : option (option (gmap string attrval))) (sch : schedule)
  : call (option JoinedByOffsetResults) :=
  let p := deref st params in
  match requested_attributes p with
  | Some (o, origAttr) =>
      match _seperateBaseJoinAttributes this origAttr with
      | (this', Rejected e) => mkCall this' st [] (Rejected e)
      | (this', Resolved baseAttributes) =>
          let fresh_loc := fresh (dom st) in
          let baseParams :=
            Params.mk (Some baseAttributes) None VUndefined (Params.clientId o)
                      (Params.filterCriterion o) (Params.offset o) (Params.size o)
                      (Params.sortCriteria o) in
          let st' := <[fresh_loc := baseParams]> st in
          match base_fetchByOffset base (Some baseParams) with
          | Rejected e => mkCall this' st' [BaseFetchByOffset (Some fresh_loc)] (Rejected e)
          | Resolved baseResult =>
              let '(log, r) :=
                fetchByOffset_then (seen_later this' pending) sch params baseResult in
              mkCall this' st' (BaseFetchByOffset (Some fresh_loc) :: log) r
          end
      end
  | None =>
      let this' := with_map this None in
      match base_fetchByOffset base p with
      | Rejected e => mkCall this' st [BaseFetchByOffset params] (Rejected e)
      | Resolved baseResult =>
          let '(log, r) :=
            fetchByOffset_then (seen_later this' pending) sch params baseResult in
          mkCall this' st (BaseFetchByOffset params :: log) r
      end
  end.

(** ** DeferredDataProvider *)

Module Deferred.

Inductive method : Type :=
| FetchFirst
| FetchByKeys
| ContainsKeys
| FetchByOffset
| GetTotalSize.

Section Provider.

(** What the promise may resolve to, and the collaborators applied to it:
    [isDataProvider] stands for [DataProviderFeatureChecker.isDataProvider]
    (module [ojs/ojcomponentcore], not among the sources); [invoke v m p] is
    what [v.m(p)] resolves to and [iterate v p n] what the [n]-th [next()] of
    the iterator of [v.fetchFirst(p)] resolves to. *)
Variables candidate params result : Type.
Variable isDataProvider : candidate -> bool.
Variable invoke : candidate -> method -> option params -> outcome result.
Variable iterate : candidate -> option params -> nat -> outcome result.

Record DeferredDataProvider : Type := mkDeferred {
  _dataProvider : outcome candidate;   (* the promise, by its outcome *)
  dataProvider : option candidate      (* [this[this._DATAPROVIDER]] *)
}.

Definition invalid_data_type : string :=
  "Invalid data type. DeferredDataProvider takes a Promise<DataProvider>".

Definition _getDataProvider (this : DeferredDataProvider)
  : DeferredDataProvider * outcome candidate :=
  match _dataProvider this with
  | Rejected e => (this, Rejected e)
  | Resolved dp =>
      if isDataProvider dp then
        (match dataProvider this with
         | Some _ => this
         | None => mkDeferred (_dataProvider this) (Some dp)
         end, Resolved dp)
      else (this, Rejected (Error invalid_data_type))
  end.

(** A method's effect: the provider, the operations invoked on the resolved
    value, and the result. *)
Record call (A : Type) : Type := mkCall {
  c_this : DeferredDataProvider;
  c_invoked : list (method * option params);
  c_result : outcome A
}.

(** A call that was rejected with the error of [_getDataProvider] and
    invoked nothing on the value the promise resolved to. *)
Definition failed_fast {A : Type} (c : call A) : Prop :=
  c_result A c = Rejected (Error invalid_data_type) /\ c_invoked A c = [].

(** [this._getDataProvider().then(dataProvider => dataProvider.m(params))]. *)
Definition forward (this : DeferredDataProvider) (m : method) (p : option params)
  : call result :=
  match _getDataProvider this with
  | (this', Resolved dp) => mkCall result this' [(m, p)] (invoke dp m p)
  | (this', Rejected e) => mkCall result this' [] (Rejected e)
  end.

Definition fetchByKeys (this : DeferredDataProvider) (p : option params) : call result :=
  forward this FetchByKeys p.

Definition containsKeys (this : DeferredDataProvider) (p : option params) : call result :=
  forward this ContainsKeys p.

Definition fetchByOffset (this : DeferredDataProvider) (p : option params) : call result :=
  forward this FetchByOffset p.

Definition getTotalSize (this : DeferredDataProvider) : call result :=
  forward this GetTotalSize None.

(** [fetchFirst] itself returns at once: an iterable around the promise of
    the inner iterator.  Its outcome is known only through [next]. *)
Definition fetchFirst (this : DeferredDataProvider) (p : option params)
  : call (nat -> outcome result) :=
  match _getDataProvider this with
  | (this', Resolved dp) =>
      mkCall _ this' [(FetchFirst, p)] (Resolved (iterate dp p))
  | (this', Rejected e) => mkCall _ this' [] (Rejected e)
  end.

(** [AsyncIterator.next]: [_asyncIteratorPromise.then(it => it.next())]. *)
Definition next (asyncIteratorPromise : outcome (nat -> outcome result)) (n : nat)
  : outcome result :=
  asyncIterator <- asyncIteratorPromise ;; asyncIterator n.

(** [isEmpty]: ['unknown'] until a provider has been stored by
    [_getDataProvider], the stored provider's own answer afterwards.
    [inner_isEmpty dp] stands for [dp.isEmpty()]. *)
Variable inner_isEmpty : candidate -> string.

Definition isEmpty (this : DeferredDataProvider) : string :=
  match dataProvider this with
  | None => "unknown"
  | Some dp => inner_isEmpty dp
  end.

(** [dispatchEvent]: [false] until a provider has been stored, the stored
    provider's own answer afterwards.  [inner_dispatchEvent dp evt] stands
    for [dp.dispatchEvent(evt)]. *)
Variable event_t : Type.
Variable inner_dispatchEvent : candidate -> event_t -> bool.

Definition dispatchEvent (this : DeferredDataProvider) (evt : event_t) : bool :=
  match dataProvider this with
  | None => false
  | Some dp => inner_dispatchEvent dp evt
  end.

End Provider.

Arguments isEmpty {candidate} inner_isEmpty this.
Arguments dispatchEvent {candidate event_t} inner_dispatchEvent this evt.
Arguments mkDeferred {candidate} _dataProvider dataProvider.
Arguments _dataProvider {candidate} d.
Arguments dataProvider {candidate} d.
Arguments c_this {candidate params A} c.
Arguments c_invoked {candidate params A} c.
Arguments c_result {candidate params A} c.
Arguments failed_fast {candidate params A} c.
Arguments _getDataProvider {candidate} isDataProvider this.
Arguments forward {candidate params result} isDataProvider invoke this m p.
Arguments fetchByKeys {candidate params result} isDataProvider invoke this p.
Arguments containsKeys {candidate params result} isDataProvider invoke this p.
Arguments fetchByOffset {candidate params result} isDataProvider invoke this p.
Arguments getTotalSize {candidate params result} isDataProvider invoke this.
Arguments fetchFirst {candidate params result} isDataProvider iterate this p.
Arguments next {result} asyncIteratorPromise n.

End Deferred.

(** ** Notions used to state properties of the join *)

(** Whether a row has the field [a], and what it holds; nothing for a null
    row. *)
Definition row_prop (a : string) (row : option (list (string * value)))
  : option (bool * value) :=
  (fun r => (has_field r a, get_field r a)) <$> row.

(** The aliases for which a fetch was issued, and those warned about, in
    the order of the log. *)
Definition fetched_aliases (log : list event) : list string :=
  omap (fun e => match e with
                 | JoinedFetchByKeys a _ => Some a
                 | _ => None
                 end) log.


(** What [item.data] of the item found for [k] is, [null] when there is
    none: the value given to a row whose key is [k]. *)
Definition joined_value (m : list (value * Item value)) (k : value) : value :=
  match keymap_get m k with
  | Some item => data item
  | None => VNull
  end.

(** Whether a requested attribute goes to the base attribute list: it
    names no declared join alias. *)
Definition to_base (joinAlias : list string) (a : attrval) : bool :=
  match classify a with
  | Resolved (Some s, _) => negb (bJoinAlias s joinAlias)
  | _ => true
  end.

(** Whether a declared foreign key is a single field. *)
Definition single_field (fk : option foreignKeyDescriptor) : bool :=
  match fk with
  | Some (FKField _) => true
  | _ => false
  end.

(** The field names of a foreign-key descriptor. *)
Definition fk_fields (fk : foreignKeyDescriptor) : list string :=
  match fk with
  | FKField f => [f]
  | FKFields fs => fs
  end.

(** Whether a row of a page is [null]. *)
Definition is_null_row (row : option (list (string * value))) : bool :=
  match row with
  | None => true
  | Some _ => false
  end.

(** Whether the join of [alias] takes part in the current call: always
    when no attributes were requested, and only when the request named the
    alias otherwise. *)
Definition alias_requested (this : JoiningDataProvider) (alias : string) : bool :=
  match _mapJoinAttributes this with
  | None => true
  | Some m => bool_decide (is_Some (m !! alias))
  end.

(** The object literal built for the fetch of alias number [i], when there
    is a fetch. *)
Definition join_request (this : JoiningDataProvider) (fkValues : list (list value))
    (i : nat) (alias : string) : option JoinFetchParameters :=
  match _mapJoinAttributes this with
  | None => Some (mkJoinFetch (fkValues !! i) None)
  | Some m => (fun attr => mkJoinFetch (fkValues !! i) (Some attr)) <$> m !! alias
  end.


(** The map of a fetched result when it holds at least one item: what
    [_fetchByKeyResultsToArray] reads from. *)
Definition result_content {D : Type} (result : option (FetchByKeysResults D))
  : option (list (value * Item D)) :=
  match result ≫= results with
  | Some (e :: m) => Some (e :: m)
  | _ => None
  end.

(** The item built for a base item whose row the join left as it was. *)
Definition unjoined_item (item : Item (option (list (string * value)))) : Item value :=
  mkItem (metadata item) (row_value (data item)).

(** Whether a join, when it carries information, carries a
    [foreignKeyMapping]. *)
Definition has_mapping (e : string * option Info.t) : bool :=
  match e.2 with
  | Some info =>
      match Info.mapping info with
      | Some _ => true
      | None => false
      end
  | None => true
  end.

(** Promise [i] settles before promise [k]: at an earlier instant, or at
    the same instant and earlier in the array. *)
Definition settles_before (settle : nat -> nat) (i k : nat) : Prop :=
  settle i < settle k \/ (settle i = settle k /\ i < k).

(** ** Sample providers and pages

    The sample states of [JoiningDataProvider] below are what the
    constructor builds from the options shown, with [_mapJoinAttributes]
    set to [null] as every fetch without [attributes] leaves it. *)

Definition batchLookup : string -> option FetchByKeysCapability :=
  fun _ => Some (mkCapability "batchLookup").

(** A joined provider over a table of records by key: it resolves to the
    entries of the requested keys that the table holds. *)
Definition table_provider (table : list (value * value)) : DataProvider :=
  mkDataProvider batchLookup
    (fun p =>
       Resolved (Some (mkFetchByKeysResults (Some
         (omap (fun k => (fun d => (k, mkItem (VObj [("key", k)]) d)) <$> keymap_get table k)
               (default [] (jf_keys p))))))).

Definition departments : list (value * value) :=
  [(VNum 10, VObj [("name", VStr "Eng")]); (VNum 20, VObj [("name", VStr "Sales")])].

Definition join_on (fk : string) (dp : option DataProvider) : option Info.t :=
  Some (Info.mk (Some (Info.mkMapping (Some fk) None None)) dp).

Definition employees : list (option (list (string * value))) :=
  [Some [("id", VNum 1); ("deptId", VNum 10); ("mgrId", VNum 7)];
   Some [("id", VNum 2); ("deptId", VNull); ("mgrId", VNum 7)]].

(** [{ joins: { dept: { foreignKeyMapping: { foreignKey: 'deptId' },
                        joinedDataProvider: null } } }] *)
Definition joins_null_provider : DataProviderOptions :=
  mkOptions (Some [("dept", join_on "deptId" None)]).

Definition joining_null_provider : JoiningDataProvider :=
  mkJoining joins_null_provider ["dept"] [Some (FKField "deptId")] [None] [None] None.

(** [{ joins: { dept: { foreignKeyMapping: { foreignKey: 'deptId' }, joinedDataProvider: D },
                   mgr:  { foreignKeyMapping: { foreignKey: 'mgrId' },  joinedDataProvider: M } } }]
    where [D] holds the departments and [M] holds nothing. *)
Definition joins_dept_mgr : DataProviderOptions :=
  mkOptions (Some [("dept", join_on "deptId" (Some (table_provider departments)));
                   ("mgr", join_on "mgrId" (Some (table_provider [])))]).

Definition joining_dept_mgr : JoiningDataProvider :=
  mkJoining joins_dept_mgr ["dept"; "mgr"]
            [Some (FKField "deptId"); Some (FKField "mgrId")] [None; None]
            [Some (table_provider departments); Some (table_provider [])] None.

(** The same with the single join [dept]. *)
Definition joins_dept : DataProviderOptions :=
  mkOptions (Some [("dept", join_on "deptId" (Some (table_provider departments)))]).

Definition joining_dept : JoiningDataProvider :=
  mkJoining joins_dept ["dept"] [Some (FKField "deptId")] [None]
            [Some (table_provider departments)] None.

(** [{ joins: { team: { foreignKeyMapping: { foreignKeys: ['a', 'b'] }, ... },
                   site: { foreignKeyMapping: { foreignKey: 'c' }, ... } } }] *)
Definition joins_team_site : DataProviderOptions :=
  mkOptions (Some [("team", Some (Info.mk (Some (Info.mkMapping None (Some ["a"; "b"]) None))
                                          (Some (table_provider []))));
                   ("site", join_on "c" (Some (table_provider [])))]).

Definition joining_team_site : JoiningDataProvider :=
  mkJoining joins_team_site ["team"; "site"]
            [Some (FKFields ["a"; "b"]); Some (FKField "c")] [None; None]
            [Some (table_provider []); Some (table_provider [])] None.

(** A promise that resolves to the number 5, where only objects with a
    [fetchFirst] member count as data providers. *)
Definition has_fetchFirst (v : value) : bool :=
  match v with
  | VObj fs => has_field fs "fetchFirst"
  | _ => false
  end.

Definition echo (v : value) (m : Deferred.method) (p : option value) : outcome value :=
  Resolved v.

Definition deferred_five : Deferred.DeferredDataProvider value :=
  Deferred.mkDeferred (Resolved (VNum 5)) None.

(** [attributes: [{ name: 'dept' }, { name: 'dept', attributes: ['name'] }]] *)
Definition request_dept_twice : list attrval :=
  [ANested "dept" AUndefined; ANested "dept" (AList [AName "name"])].

(** [attributes: [{ name: 'dept', attributes: ['name'] },
                 { name: 'dept', attributes: ['location'] }]] *)
Definition request_dept_name_location : list attrval :=
  [ANested "dept" (AList [AName "name"]); ANested "dept" (AList [AName "location"])].

(** A base provider over a table of rows by key.  Keyed fetches resolve to
    the entries of the requested keys that the table holds; the iterator
    yields the whole table as its first page. *)
Definition table_base (table : list (value * list (string * value))) : BaseDataProvider :=
  mkBase
    (fun _ n =>
       Resolved (Some
         (match n with
          | 0 => mkIteratorResult false
                   (Some (mkFetchListResult (Some (map (fun e => Some e.2) table)) VUndefined))
          | S _ => mkIteratorResult true None
          end)))
    (fun p =>
       Resolved (Some (mkFetchByKeysResults (Some
         (omap (fun k => (fun r => (k, mkItem (VObj [("key", k)]) (Some r)))
                           <$> keymap_get table k)
               (default [] (p ≫= Params.keys)))))))
    (fun _ =>
       Resolved (Some (mkBaseByOffset
         (Some (map (fun e => mkItem (VObj [("key", e.1)]) (Some e.2)) table)) true))).

Definition employee_table : list (value * list (string * value)) :=
  [(VNum 1, [("id", VNum 1); ("deptId", VNum 10)])].

(** [{ keys: [1, 2], attributes: ['id', 'dept'] }], held at location 0. *)
Definition params_id_dept : Params.t :=
  Params.mk (Some [AName "id"; AName "dept"]) (Some [VNum 1; VNum 2])
            VUndefined VUndefined VUndefined VUndefined VUndefined VUndefined.

(** [{ keys: [1, 2] }], held at location 0. *)
Definition params_keys : Params.t :=
  Params.mk None (Some [VNum 1; VNum 2])
            VUndefined VUndefined VUndefined VUndefined VUndefined VUndefined.

(** What [fetchByKeys] resolves to for the keys 1 and 2 over the employee
    table joined with the departments. *)
Definition joined_keys_1_2 : JoinedByKeysResults :=
  mkJoinedByKeys (Some 0)
    [(VNum 1, mkItem (VObj [("key", VNum 1)])
                     (VObj [("id", VNum 1); ("deptId", VNum 10);
                            ("dept", VObj [("name", VStr "Eng")])]));
     (VNum 2, mkItem VNull VNull)].


(** ** Further samples *)

(** A transform that reads the department id out of the object it is
    given and wraps it in a one-element key. *)
Definition wrap_deptId (o : list (string * value)) : value :=
  VArr [get_field o "deptId"].

(** A base provider whose fetches are all rejected. *)
Definition offline : error := Failure (VStr "offline").

Definition rejecting_base : BaseDataProvider :=
  mkBase (fun _ _ => Rejected offline) (fun _ => Rejected offline)
         (fun _ => Rejected offline).

(** A joined provider whose fetches are all rejected, and one that does not
    report the [batchLookup] implementation. *)
Definition rejecting_provider : DataProvider :=
  mkDataProvider batchLookup (fun _ => Rejected offline).




(** The provider with the single join [dept] after a fetch whose
    attributes named no alias. *)
Definition joining_dept_unrequested : JoiningDataProvider :=
  with_map joining_dept (Some ∅).

(** A promise that resolves to an object with a [fetchFirst] member, and
    one that is rejected. *)
Definition some_provider : value := VObj [("fetchFirst", VBool true)].

Definition deferred_provider : Deferred.DeferredDataProvider value :=
  Deferred.mkDeferred (Resolved some_provider) None.

Definition deferred_rejected : Deferred.DeferredDataProvider value :=
  Deferred.mkDeferred (Rejected offline) None.

(** The employees joined with their departments. *)
Definition employees_joined : list (option (list (string * value))) :=
  [Some [("id", VNum 1); ("deptId", VNum 10); ("mgrId", VNum 7);
         ("dept", VObj [("name", VStr "Eng")])];
   Some [("id", VNum 2); ("deptId", VNull); ("mgrId", VNum 7); ("dept", VNull)]].

(** What the department provider resolves to for the keys of the
    employees. *)
Definition departments_found : list (value * Item value) :=
  [(VNum 10, mkItem (VObj [("key", VNum 10)]) (VObj [("name", VStr "Eng")]))].

(** The items of an offset fetch over the employee table, and what
    [fetchByOffset] makes of them. *)
Definition employee_items : list (Item (option (list (string * value)))) :=
  [mkItem (VObj [("key", VNum 1)]) (Some [("id", VNum 1); ("deptId", VNum 10)])].

Definition joined_offset : JoinedByOffsetResults :=
  mkJoinedByOffset (Some 0)
    [mkItem (VObj [("key", VNum 1)])
            (VObj [("id", VNum 1); ("deptId", VNum 10);
                   ("dept", VObj [("name", VStr "Eng")])])]
    true.

Definition always_no (v : value) : string := "no".

Definition always_handled (v : value) (evt : value) : bool := true.

(** [{ attributes: ['id'] }], held at location 0. *)
Definition params_only_id : Params.t :=
  Params.mk (Some [AName "id"]) None
            VUndefined VUndefined VUndefined VUndefined VUndefined VUndefined.

(** [dept] joined through a provider whose fetches are rejected with the
    error [late], [mgr] through one whose fetches are rejected with
    [offline]; and a run in which the fetch of [mgr] settles first. *)
Definition late : error := Failure (VStr "late").

Definition late_provider : DataProvider :=
  mkDataProvider batchLookup (fun _ => Rejected late).

Definition joins_late_offline : DataProviderOptions :=
  mkOptions (Some [("dept", join_on "deptId" (Some late_provider));
                   ("mgr", join_on "mgrId" (Some rejecting_provider))]).

Definition joining_late_offline : JoiningDataProvider :=
  mkJoining joins_late_offline ["dept"; "mgr"]
            [Some (FKField "deptId"); Some (FKField "mgrId")] [None; None]
            [Some late_provider; Some rejecting_provider] None.

Definition mgr_first : schedule :=
  mkSchedule (fun i => match i with 0 => 2 | _ => 1 end) None.

(** A run in which a fetch without attributes is started on the provider
    while the joined fetches are pending, and what the join step then makes
    of the employees when [dept] was not requested. *)
Definition unfiltered_meanwhile : schedule := mkSchedule (fun _ => 0) (Some None).

Definition employees_dept_undefined : list (option (list (string * value))) :=
  [Some [("id", VNum 1); ("deptId", VNum 10); ("mgrId", VNum 7); ("dept", VUndefined)];
   Some [("id", VNum 2); ("deptId", VNull); ("mgrId", VNum 7); ("dept", VUndefined)]].
(** * Properties *)

(** ** Keys and keyed maps *)

Lemma value_ind_nested (P : value -> Prop) :
  P VUndefined -> P VNull ->
  (forall b, P (VBool b)) -> (forall n, P (VNum n)) -> (forall s, P (VStr s)) ->
  (forall elems, Forall P elems -> P (VArr elems)) ->
  (forall fields, Forall (fun kv => P kv.2) fields -> P (VObj fields)) ->
  forall v, P v.
Proof.
  intros Hu Hn Hb Hz Hs Harr Hobj. fix IH 1.
  intros [| |b|n|s|elems|fields];
    [exact Hu | exact Hn | apply Hb | apply Hz | apply Hs | |].
  - apply Harr. induction elems as [|a elems IHe]; constructor; [apply IH | exact IHe].
  - apply Hobj. induction fields as [|[k a] fields IHf]; constructor;
      [apply IH | exact IHf].
Qed.

Lemma value_eqb_eq x : forall y, value_eqb x y = true <-> x = y.
Proof.
  induction x as [| |b|n|s|elems IH|fields IH] using value_ind_nested;
    intros y; destruct y as [| |b'|n'|s'|elems'|fields']; simpl;
    try (split; [discriminate | done]); try done.
  - rewrite Bool.eqb_true_iff. split; congruence.
  - rewrite Z.eqb_eq. split; congruence.
  - rewrite String.eqb_eq. split; congruence.
  - revert elems'. induction IH as [|a elems Ha _ IHl]; intros [|b' elems'];
      try (split; [discriminate | done]); try done.
    rewrite andb_true_iff, Ha, (IHl elems').
    split; [intros [-> [= ->]]; done | intros [= -> ->]; done].
  - revert fields'. induction IH as [|[k a] fields Ha _ IHl]; intros [|[k' b'] fields'];
      try (split; [discriminate | done]); try done.
    simpl in Ha. rewrite !andb_true_iff, String.eqb_eq, Ha, (IHl fields').
    split; [intros [[-> ->] [= ->]]; done | intros [= -> -> ->]; done].
Qed.

Lemma value_eqb_refl x : value_eqb x x = true.
Proof. by apply value_eqb_eq. Qed.

Lemma keymap_get_set {V : Type} (m : list (value * V)) k1 k2 v :
  keymap_get (keymap_set m k1 v) k2
  = if value_eqb k1 k2 then Some v else keymap_get m k2.
Proof.
  induction m as [|[k' w] m IH]; simpl.
  - done.
  - destruct (value_eqb k' k1) eqn:H1; simpl.
    + apply value_eqb_eq in H1. subst k'. by destruct (value_eqb k1 k2).
    + rewrite IH. destruct (value_eqb k' k2) eqn:H2; [|done].
      destruct (value_eqb k1 k2) eqn:H3; [|done].
      apply value_eqb_eq in H2, H3. subst k' k2.
      rewrite value_eqb_refl in H1. discriminate.
Qed.

(** ** The join step *)

Lemma getJoinSpec_null_provider :
  _getJoinSpec joins_null_provider
  = Resolved (with_map joining_null_provider (Some ∅)).
Proof. reflexivity. Qed.

Lemma issue_fetches_null_provider this fkValues aliases :
  forall i k,
    k < length aliases ->
    mjoin (_joinDPs this !! (i + k)) = None ->
    (issue_fetches this fkValues i aliases).2
    = Rejected (TypeError "joinDP.getCapability").
Proof.
  induction aliases as [|alias rest IH]; intros i k Hk Hnull; simpl in *.
  - lia.
  - destruct (mjoin (_joinDPs this !! i)) as [joinDP|] eqn:Hdp; [|reflexivity].
    destruct k as [|k].
    + rewrite Nat.add_0_r in Hnull. congruence.
    + specialize (IH (S i) k ltac:(lia)).
      rewrite <- Nat.add_succ_comm in Hnull. specialize (IH Hnull).
      destruct (issue_fetches this fkValues (S i) rest) as [later promises].
      simpl in IH. subst promises.
      repeat case_match; reflexivity.
Qed.

(** C1 (as the code behaves): on a non-empty page with joins configured, a
    join whose joined data provider is null makes the join step fail with a
    TypeError, since the provider's capability is read before the provider
    is compared with null. *)
Theorem joiningData_null_provider_throws this sch rows opts i :
  rows <> [] ->
  joins opts <> None ->
  i < length (_joinAlias this) ->
  mjoin (_joinDPs this !! i) = None ->
  (_joiningData this sch (Some rows) opts).2
  = Rejected (TypeError "joinDP.getCapability").
Proof.
  intros Hrows Hjoins Hi Hnull. unfold _joiningData.
  destruct rows as [|r rows]; [done|].
  destruct (joins opts) as [js|]; [|done].
  pose proof (issue_fetches_null_provider this
                (_getFKValues (r :: rows) (_fks this) (_transform this))
                (_joinAlias this) 0 i Hi Hnull) as H.
  destruct (issue_fetches _ _ _ _) as [log promises]. simpl in *.
  by rewrite H.
Qed.

Lemma joiningData_null_provider_throws_witness :
  (_joiningData joining_null_provider in_turn (Some employees) joins_null_provider).2
  = Rejected (TypeError "joinDP.getCapability").
Proof.
  apply (joiningData_null_provider_throws joining_null_provider in_turn employees
           joins_null_provider 0).
  - discriminate.
  - discriminate.
  - simpl. lia.
  - reflexivity.
Defined.

Lemma getJoinSpec_no_joins opts this :
  joins opts = Some [] ->
  _getJoinSpec opts = Resolved this ->
  _joinAlias this = [].
Proof. unfold _getJoinSpec. intros ->. simpl. intros [= <-]. reflexivity. Qed.

(** C8: the join step returns a missing or empty page, and any page when
    no joins are configured (the [joins] option is missing, or it declares
    no alias), as it is, and calls no joined provider. *)
Theorem joiningData_identity this sch baseData opts :
  baseData = None \/ baseData = Some [] \/ joins opts = None \/ _joinAlias this = [] ->
  _joiningData this sch baseData opts = ([], Resolved baseData).
Proof.
  intros [-> | [-> | [Hnone | Hnil]]]; unfold _joiningData.
  - reflexivity.
  - reflexivity.
  - rewrite Hnone. by destruct baseData as [[|r rows]|].
  - rewrite Hnil. destruct baseData as [[|r rows]|]; [done| |done].
    by destruct (joins opts).
Qed.

Lemma joiningData_identity_witness :
  _joiningData joining_dept in_turn (Some []) joins_dept = ([], Resolved (Some [])).
Proof.
  apply (joiningData_identity joining_dept in_turn (Some []) joins_dept).
  right. left. reflexivity.
Defined.

Lemma getJoinSpec_dept_mgr :
  _getJoinSpec joins_dept_mgr = Resolved (with_map joining_dept_mgr (Some ∅)).
Proof. reflexivity. Qed.

Lemma getJoinSpec_dept :
  _getJoinSpec joins_dept = Resolved (with_map joining_dept (Some ∅)).
Proof. reflexivity. Qed.

Lemma getJoinSpec_team_site :
  _getJoinSpec joins_team_site = Resolved (with_map joining_team_site (Some ∅)).
Proof. reflexivity. Qed.

(** C3 (as the code behaves): when the result set fetched for an alias is
    empty, nothing is written to the shared result array, and the rows
    receive what the array held before.  With the joins [dept] and [mgr],
    no manager found, every row gets under [mgr] the value joined under
    [dept]; with the single join [dept] and no department found, the row gets
    [undefined].  In neither case does the row get [null].  No other fetch
    is started in the meantime, and the order in which the two fetches settle
    does not matter. *)
Theorem joiningData_empty_result_set_leaves_stale_values settle :
  (_joiningData joining_dept_mgr (mkSchedule settle None) (Some employees)
                joins_dept_mgr).2
  = Resolved (Some
      [Some [("id", VNum 1); ("deptId", VNum 10); ("mgrId", VNum 7);
             ("dept", VObj [("name", VStr "Eng")]);
             ("mgr", VObj [("name", VStr "Eng")])];
       Some [("id", VNum 2); ("deptId", VNull); ("mgrId", VNum 7);
             ("dept", VNull); ("mgr", VNull)]])
  /\ (_joiningData joining_dept (mkSchedule settle None)
                   (Some [Some [("id", VNum 2); ("deptId", VNull)]]) joins_dept).2
     = Resolved (Some [Some [("id", VNum 2); ("deptId", VNull); ("dept", VUndefined)]]).
Proof. split; reflexivity. Qed.

(** ** The attribute partitioner *)

(** C4 (as the code behaves): a nested attribute that names no join alias
    is forwarded to the base provider as its list of sub-attributes alone;
    the object [{name, attributes}] itself, and with it the name, is not
    forwarded.  A plain name is forwarded as it is. *)
Theorem seperateBaseJoinAttributes_forwards_sub_attributes_only :
  (_seperateBaseJoinAttributes joining_dept
     [AName "id"; ANested "address" (AList [AName "city"])]).2
  = Resolved [AName "id"; AList [AName "city"]; AName "deptId"].
Proof. reflexivity. Qed.

(** C6 (as the code behaves): appending a composite foreign key does not
    advance the write index, so the single foreign key written next lands on
    the first field of the composite one, which is lost; and the fields of a
    composite foreign key are appended even when the list has them. *)
Theorem seperateBaseJoinAttributes_loses_and_repeats_foreign_keys :
  (_seperateBaseJoinAttributes joining_team_site [AName "x"]).2
  = Resolved [AName "x"; AName "c"; AName "b"]
  /\ (_seperateBaseJoinAttributes joining_team_site [AName "a"; AName "b"; AName "c"]).2
     = Resolved [AName "a"; AName "b"; AName "c"; AName "a"; AName "b"].
Proof. split; reflexivity. Qed.

(** *** The join-attribute map under repeated aliases *)

Lemma classify_loop_app joinAlias l1 l2 :
  forall p,
    classify_loop joinAlias p (l1 ++ l2)
    = match classify_loop joinAlias p l1 with
      | (p1, None) => classify_loop joinAlias p1 l2
      | (p1, Some e) => (p1, Some e)
      end.
Proof.
  induction l1 as [|a l1 IH]; intros p; simpl; [done|].
  by destruct (classify_step joinAlias p a).
Qed.

Lemma classify_step_other joinAlias alias p p' a :
  classify_step joinAlias p a = Resolved p' ->
  names alias a = false ->
  pt_map p' !! alias = pt_map p !! alias.
Proof.
  unfold classify_step, names.
  destruct (classify a) as [[[s|] v]|e]; simpl; intros Hstep Hname;
    repeat case_match; simplify_eq; simpl; try done.
  all: apply lookup_insert_ne; by apply String.eqb_neq.
Qed.

Lemma classify_step_same joinAlias alias p p' a v :
  classify_step joinAlias p a = Resolved p' ->
  classify a = Resolved (Some alias, v) ->
  bJoinAlias alias joinAlias = true ->
  pt_map p' !! alias
  = Some (match pt_map p !! alias with
          | Some stored =>
              if attr_defined v
              then (if attr_defined stored then stored else AList [])
              else stored
          | None => v
          end).
Proof.
  unfold classify_step. intros Hstep Hclass Hjoin.
  rewrite Hclass in Hstep. simpl in Hstep. rewrite Hjoin in Hstep.
  destruct (pt_map p !! alias) as [stored|] eqn:Hstored;
    repeat case_match; simplify_eq; simpl;
    by rewrite ?lookup_insert_eq.
Qed.

Lemma classify_loop_prefix joinAlias alias l :
  forall p p',
    classify_loop joinAlias p l = (p', None) ->
    (forall a, a ∈ l -> names alias a = false) ->
    pt_map p' !! alias = pt_map p !! alias.
Proof.
  induction l as [|a l IH]; intros p p' Hloop Hnone; simpl in Hloop.
  - by simplify_eq.
  - destruct (classify_step joinAlias p a) as [p1|e] eqn:Hstep; [|done].
    rewrite (IH p1 p' Hloop); [|set_solver].
    apply (classify_step_other joinAlias alias p p1 a Hstep). set_solver.
Qed.

(** Once the alias has an entry, the rest of the request can only turn a
    missing value into the empty list. *)
Lemma classify_loop_stored joinAlias alias l :
  bJoinAlias alias joinAlias = true ->
  forall p p' stored,
    classify_loop joinAlias p l = (p', None) ->
    pt_map p !! alias = Some stored ->
    pt_map p' !! alias
    = Some (if attr_defined stored then stored
            else if later_defined alias l then AList [] else stored).
Proof.
  intros Hjoin. induction l as [|a l IH]; intros p p' stored Hloop Hstored;
    simpl in Hloop.
  - simplify_eq. rewrite Hstored. by destruct (attr_defined stored).
  - destruct (classify_step joinAlias p a) as [p1|e] eqn:Hstep; [|done].
    unfold later_defined. simpl. fold (later_defined alias l).
    destruct (names alias a) eqn:Hname.
    + unfold names in Hname. unfold carried.
      destruct (classify a) as [[[s|] v]|e] eqn:Hclass; try done.
      apply String.eqb_eq in Hname. subst s.
      pose proof (classify_step_same joinAlias alias p p1 a v Hstep Hclass Hjoin) as H1.
      rewrite Hstored in H1. simpl.
      destruct (attr_defined v) eqn:Hv, (attr_defined stored) eqn:Hs;
        simpl in H1; rewrite (IH p1 p' _ Hloop H1); simpl; rewrite ?Hs; done.
    + rewrite <- (classify_step_other joinAlias alias p p1 a Hstep Hname) in Hstored.
      rewrite (IH p1 p' stored Hloop Hstored). done.
Qed.

Lemma fk_step_map p fk : pt_map (fk_step p fk) = pt_map p.
Proof. unfold fk_step. by repeat case_match. Qed.

Lemma fk_loop_map fks : forall p, pt_map (fk_loop p fks) = pt_map p.
Proof.
  unfold fk_loop. induction fks as [|fk fks IH]; intros p; simpl; [done|].
  by rewrite IH, fk_step_map.
Qed.

(** C5 (as claimed, refuted): the first occurrence [{ name: 'dept' }]
    carries no sub-attributes, the second carries [['name']]; the entry for
    [dept] is then the empty list, not the first occurrence's value. *)
Lemma duplicate_alias_entry_not_first_value :
  classify (ANested "dept" AUndefined) = Resolved (Some "dept", AUndefined)
  /\ (_mapJoinAttributes (_seperateBaseJoinAttributes joining_dept request_dept_twice).1
        ≫= (.!! "dept")) = Some (AList [])
  /\ (_mapJoinAttributes (_seperateBaseJoinAttributes joining_dept request_dept_twice).1
        ≫= (.!! "dept")) <> Some AUndefined.
Proof.
  split; [reflexivity|].
  split; [vm_compute; reflexivity | vm_compute; discriminate].
Qed.

(** C5 (amended): when a request names a join alias more than once and a
    later occurrence carries sub-attributes, then, if the partition
    completes, the entry for the alias is the value carried by the first
    occurrence when that value is defined, and the empty list when it is
    not; the later sub-attributes are not merged in. *)
Theorem duplicate_alias_keeps_first_entry this pre first rest alias v0 this' base :
  bJoinAlias alias (_joinAlias this) = true ->
  (forall a, a ∈ pre -> names alias a = false) ->
  classify first = Resolved (Some alias, v0) ->
  later_defined alias rest = true ->
  _seperateBaseJoinAttributes this (pre ++ first :: rest) = (this', Resolved base) ->
  _mapJoinAttributes this' ≫= (.!! alias)
  = Some (if attr_defined v0 then v0 else AList []).
Proof.
  intros Hjoin Hpre Hfirst Hlater. unfold _seperateBaseJoinAttributes.
  rewrite classify_loop_app.
  destruct (classify_loop (_joinAlias this) (mkPartition ∅ [] 0) pre)
    as [p1 [e|]] eqn:Hloop1; [done|].
  simpl.
  destruct (classify_step (_joinAlias this) p1 first) as [p2|e] eqn:Hstep; [|done].
  destruct (classify_loop (_joinAlias this) p2 rest) as [p3 [e|]] eqn:Hloop3; [done|].
  intros [= <- <-]. simpl. rewrite fk_loop_map.
  pose proof (classify_loop_prefix _ alias pre _ _ Hloop1 Hpre) as Hnone.
  simpl in Hnone. rewrite lookup_empty in Hnone.
  pose proof (classify_step_same _ alias p1 p2 first v0 Hstep Hfirst Hjoin) as Hset.
  rewrite Hnone in Hset.
  rewrite (classify_loop_stored _ alias rest Hjoin p2 p3 v0 Hloop3 Hset), Hlater.
  done.
Qed.

Lemma duplicate_alias_keeps_first_entry_witness :
  _mapJoinAttributes
    (_seperateBaseJoinAttributes joining_dept request_dept_name_location).1
    ≫= (.!! "dept")
  = Some (AList [AName "name"]).
Proof.
  apply (duplicate_alias_keeps_first_entry joining_dept []
           (ANested "dept" (AList [AName "name"]))
           [ANested "dept" (AList [AName "location"])] "dept"
           (AList [AName "name"])
           (_seperateBaseJoinAttributes joining_dept request_dept_name_location).1
           [AName "deptId"]).
  - reflexivity.
  - intros a Ha. by apply elem_of_nil in Ha.
  - reflexivity.
  - reflexivity.
  - reflexivity.
Defined.

(** ** The keys carried by the joined fetches *)

Lemma getFKValues_lookup rows fks transform i :
  _getFKValues rows fks transform !! i
  = (fun fk => map (fun row => fk_value row fk (mjoin (transform !! i))) rows) <$> fks !! i.
Proof. unfold _getFKValues. apply list_lookup_imap. Qed.

Lemma warning_no_fetch alias capability e :
  e ∈ warning alias capability -> is_joined_fetch e = false.
Proof.
  unfold warning. repeat case_match; set_solver.
Qed.

(** Every fetch issued by the first loop carries the keys resolved for the
    alias it is issued for. *)
Lemma issue_fetches_keys this fkValues aliases :
  forall i alias p,
    JoinedFetchByKeys alias p ∈ (issue_fetches this fkValues i aliases).1 ->
    exists k, aliases !! k = Some alias /\ jf_keys p = fkValues !! (i + k).
Proof.
  induction aliases as [|a rest IH]; intros i alias p Hin; simpl in Hin.
  - set_solver.
  - destruct (mjoin (_joinDPs this !! i)) as [joinDP|]; [|set_solver].
    destruct (issue_fetches this fkValues (S i) rest) as [later promises] eqn:Hrest.
    assert (Hcase :
      (JoinedFetchByKeys alias p ∈ later) \/
      (a = alias /\ jf_keys p = fkValues !! i)).
    { assert (Hw : forall c, JoinedFetchByKeys alias p ∉ warning a c).
      { intros c Hw. apply warning_no_fetch in Hw. discriminate. }
      destruct (_mapJoinAttributes this) as [m|]; [destruct (m !! a)|];
        simpl in Hin; set_unfold in Hin; naive_solver. }
    destruct Hcase as [Hl | [-> Hk]].
    + specialize (IH (S i) alias p). rewrite Hrest in IH.
      destruct (IH Hl) as (k & Hk & Hkeys).
      exists (S k). split; [done|]. by rewrite <- Nat.add_succ_comm.
    + exists 0. split; [done|]. by rewrite Nat.add_0_r.
Qed.

(** ** The public fetch methods and the caller's parameter object *)

Lemma fresh_not_in_store (st : gmap nat Params.t) l :
  l ∈ dom st -> l <> fresh (dom st).
Proof. intros Hl ->. by apply (is_fresh (dom st)). Qed.

(** The store after a new object was put at a fresh location: what was
    there is untouched, and the base provider was called on the new one. *)
Ltac new_object_passed :=
  split;
  [ intros ? ?; apply lookup_insert_ne; intros ?;
    by eapply fresh_not_in_store
  | eexists _, _; split; [apply is_fresh|];
    split; [reflexivity | apply lookup_insert_eq] ].

(** C10: when the partition of the requested attributes completes,
    [fetchFirst] called on a parameter object with attributes overwrites the
    [attributes] of that very object with the base attribute list, leaves its
    other fields and every other object as they were, and hands the same
    object to the base provider; [fetchByKeys] and [fetchByOffset] hand a new
    object carrying the base attribute list to the base provider and leave
    every object of the caller as it was, whatever else goes on while they
    are pending. *)
Theorem fetch_methods_and_caller_params base this st l p origAttr this' baseAttributes
    pending sch :
  st !! l = Some p ->
  Params.attributes p = Some origAttr ->
  _seperateBaseJoinAttributes this origAttr = (this', Resolved baseAttributes) ->
  (c_store (fetchFirst base this st (Some l)) !! l
     = Some (Params.mk (Some baseAttributes) (Params.keys p) (Params.scope p)
                (Params.clientId p) (Params.filterCriterion p) (Params.offset p)
                (Params.size p) (Params.sortCriteria p))
   /\ (forall l', l' <> l -> c_store (fetchFirst base this st (Some l)) !! l' = st !! l')
   /\ c_log (fetchFirst base this st (Some l)) = [BaseFetchFirst (Some l)]
   /\ c_result (fetchFirst base this st (Some l))
      = Resolved (mkIterable (Some l)
                    (base_fetchFirst base
                       (c_store (fetchFirst base this st (Some l)) !! l))))
  /\ ((forall l', (l' ∈ dom st) ->
         c_store (fetchByKeys base this st (Some l) pending sch) !! l' = st !! l')
      /\ exists l' log,
          (l' ∉ dom st)
          /\ c_log (fetchByKeys base this st (Some l) pending sch)
             = BaseFetchByKeys (Some l') :: log
          /\ c_store (fetchByKeys base this st (Some l) pending sch) !! l'
             = Some (Params.mk (Some baseAttributes) (Params.keys p) (Params.scope p)
                        VUndefined VUndefined VUndefined VUndefined VUndefined))
  /\ ((forall l', (l' ∈ dom st) ->
         c_store (fetchByOffset base this st (Some l) pending sch) !! l' = st !! l')
      /\ exists l' log,
          (l' ∉ dom st)
          /\ c_log (fetchByOffset base this st (Some l) pending sch)
             = BaseFetchByOffset (Some l') :: log
          /\ c_store (fetchByOffset base this st (Some l) pending sch) !! l'
             = Some (Params.mk (Some baseAttributes) None VUndefined (Params.clientId p)
                        (Params.filterCriterion p) (Params.offset p) (Params.size p)
                        (Params.sortCriteria p))).
Proof.
  intros Hl Hattr Hsep. split; [|split].
  - unfold fetchFirst, deref. simpl. rewrite Hl, Hattr, Hsep. simpl.
    rewrite lookup_insert_eq. split; [done|]. split; [|done].
    intros l' Hne. by apply lookup_insert_ne.
  - unfold fetchByKeys, requested_attributes, deref. simpl. rewrite Hl. simpl.
    rewrite Hattr. simpl. rewrite Hsep.
    destruct (base_fetchByKeys base _) as [baseResults|e]; simpl;
      [destruct (fetchByKeys_then _ _ _ _ _) as [log r]; simpl|];
      new_object_passed.
  - unfold fetchByOffset, requested_attributes, deref. simpl. rewrite Hl. simpl.
    rewrite Hattr. simpl. rewrite Hsep.
    destruct (base_fetchByOffset base _) as [baseResult|e]; simpl;
      [destruct (fetchByOffset_then _ _ _ _) as [log r]; simpl|];
      new_object_passed.
Qed.

Lemma fetch_methods_and_caller_params_witness :
  c_store (fetchFirst (table_base employee_table) joining_dept
             {[0 := params_id_dept]} (Some 0)) !! 0
  = Some (Params.mk (Some [AName "id"; AName "deptId"]) (Some [VNum 1; VNum 2])
            VUndefined VUndefined VUndefined VUndefined VUndefined VUndefined)
  /\ c_store (fetchByKeys (table_base employee_table) joining_dept
                {[0 := params_id_dept]} (Some 0) None in_turn) !! 0
     = Some params_id_dept
  /\ c_store (fetchByOffset (table_base employee_table) joining_dept
                {[0 := params_id_dept]} (Some 0) None in_turn) !! 0
     = Some params_id_dept.
Proof.
  pose proof (fetch_methods_and_caller_params (table_base employee_table)
                joining_dept {[0 := params_id_dept]} 0 params_id_dept
                [AName "id"; AName "dept"]
                (_seperateBaseJoinAttributes joining_dept [AName "id"; AName "dept"]).1
                [AName "id"; AName "deptId"] None in_turn
                eq_refl eq_refl eq_refl) as H.
  split; [apply H|].
  split.
  - apply (proj1 (proj1 (proj2 H))). vm_compute. reflexivity.
  - apply (proj1 (proj2 (proj2 H))). vm_compute. reflexivity.
Defined.

(** ** [fetchByKeys]: one item per requested key *)

Lemma assignAliasData_null baseData alias aliasData j :
  baseData !! j = Some None ->
  _assignAliasData baseData alias aliasData !! j = Some None.
Proof. unfold _assignAliasData. rewrite list_lookup_imap. by intros ->. Qed.

(** The merge leaves null rows null. *)
Lemma merge_results_null this fkValues fetched j :
  forall i resultMetadata resultData baseData out,
    merge_results this fkValues i fetched resultMetadata resultData baseData
    = Resolved out ->
    baseData !! j = Some None ->
    out !! j = Some None.
Proof.
  induction fetched as [|r rest IH]; intros i rm rd baseData out Hmerge Hnull;
    simpl in Hmerge.
  - by simplify_eq.
  - destruct (alias_selected this i).
    + destruct (_fetchByKeyResultsToArray _ _ _ _ _) as [arrays|e]; [|done].
      simpl in Hmerge. eapply IH; [exact Hmerge|].
      by apply assignAliasData_null.
    + by eapply IH.
Qed.

Lemma joiningData_null this sch rows opts joinData :
  (_joiningData this sch (Some rows) opts).2 = Resolved joinData ->
  exists rows',
    joinData = Some rows'
    /\ forall j, rows !! j = Some None -> rows' !! j = Some None.
Proof.
  unfold _joiningData. destruct rows as [|r rows].
  - simpl. intros [= <-]. by exists [].
  - destruct (joins opts) as [js|]; [|simpl; intros [= <-]; by eexists].
    destruct (issue_fetches _ _ _ _) as [log [ps|e]]; [|done]. simpl.
    destruct (promise_all _ ps) as [fetched|e]; [|done]. simpl.
    destruct (merge_results _ _ _ _ _ _ _) as [joined|e] eqn:Hmerge; [|done].
    simpl. intros [= <-]. exists joined. split; [done|].
    intros j Hj. by eapply merge_results_null.
Qed.

Lemma collect_items_entry keys k X metaData rows :
  forall i acc items,
    collect_items keys i metaData (Some rows) acc = Resolved items ->
    (forall j, keys !! j = Some k ->
               mkItem (array_get metaData (i + j))
                      (match rows !! (i + j) with
                       | Some r => row_value r
                       | None => VUndefined
                       end) = X) ->
    k ∈ keys \/ keymap_get acc k = Some X ->
    keymap_get items k = Some X.
Proof.
  induction keys as [|key rest IH]; intros i acc items Hcollect Hitem Hk;
    simpl in Hcollect.
  - simplify_eq. destruct Hk as [Hk|Hk]; [|done]. by apply elem_of_nil in Hk.
  - apply (IH (S i) _ _ Hcollect).
    + intros j Hj. rewrite Nat.add_succ_comm. by apply Hitem.
    + rewrite keymap_get_set. destruct (value_eqb key k) eqn:Heq.
      * apply value_eqb_eq in Heq. subst key. right. f_equal.
        rewrite <- (Hitem 0 eq_refl). by rewrite Nat.add_0_r.
      * destruct Hk as [Hk|Hk]; [|by right].
        apply elem_of_cons in Hk as [->|Hk]; [|by left].
        by rewrite value_eqb_refl in Heq.
Qed.

Lemma collect_items_some keys k metaData joinData :
  forall i acc items,
    collect_items keys i metaData joinData acc = Resolved items ->
    k ∈ keys \/ is_Some (keymap_get acc k) ->
    is_Some (keymap_get items k).
Proof.
  induction keys as [|key rest IH]; intros i acc items Hcollect Hk;
    simpl in Hcollect.
  - simplify_eq. destruct Hk as [Hk|Hk]; [|done]. by apply elem_of_nil in Hk.
  - destruct (page_get joinData i) as [d|e]; [|done]. simpl in Hcollect.
    apply (IH (S i) _ _ Hcollect).
    rewrite keymap_get_set. destruct (value_eqb key k) eqn:Heq; [by right|].
    destruct Hk as [Hk|Hk]; [|by right].
    apply elem_of_cons in Hk as [->|Hk]; [|by left].
    by rewrite value_eqb_refl in Heq.
Qed.

Lemma lookup_map {A B : Type} (f : A -> B) (l : list A) i :
  map f l !! i = f <$> l !! i.
Proof. exact (list_lookup_fmap f l i). Qed.

(** Filling empty arrays from a result that is not empty: a key that the
    result lacks gets [null] for its metadata and for its data. *)
Lemma fetchByKeyResultsToArray_missing {D : Type} (null : D) m keyValues metaData rows :
  _fetchByKeyResultsToArray null (Some (mkFetchByKeysResults (Some m)))
                            (Some keyValues) [] []
  = Resolved (metaData, rows) ->
  m <> [] ->
  forall j k,
    keyValues !! j = Some k ->
    keymap_get m k = None ->
    metaData !! j = Some VNull /\ rows !! j = Some null.
Proof.
  unfold _fetchByKeyResultsToArray, overwrite_prefix. cbn [results].
  destruct m as [|e m]; [done|].
  intros [= <- <-] _ j k Hj Hnone.
  rewrite !drop_nil, !app_nil_r, !lookup_map, Hj. cbn [fmap option_fmap option_map].
  simpl in Hnone. by rewrite Hnone.
Qed.

(** [set] adds the key when the map lacks it, and no other key. *)
Lemma keymap_set_keys {V : Type} (m : list (value * V)) k v k' :
  k' ∈ (keymap_set m k v).*1 <-> k' = k \/ k' ∈ m.*1.
Proof.
  induction m as [|[k0 w] m IH]; simpl.
  - set_solver.
  - destruct (value_eqb k0 k) eqn:Heq; simpl.
    + apply value_eqb_eq in Heq. subst k0. set_solver.
    + rewrite !elem_of_cons, IH. tauto.
Qed.

Lemma keymap_set_NoDup {V : Type} (m : list (value * V)) k v :
  NoDup m.*1 -> NoDup (keymap_set m k v).*1.
Proof.
  induction m as [|[k0 w] m IH]; simpl; intros Hnd.
  - apply NoDup_singleton.
  - apply NoDup_cons in Hnd as [Hk0 Hnd].
    destruct (value_eqb k0 k) eqn:Heq; simpl.
    + by apply NoDup_cons.
    + apply NoDup_cons. split; [|by apply IH].
      rewrite keymap_set_keys. intros [-> | Hin]; [|done].
      by rewrite value_eqb_refl in Heq.
Qed.

(** The second loop over the requested keys adds these keys and no other,
    each once. *)
Lemma collect_items_keys keys metaData joinData :
  forall i acc items,
    collect_items keys i metaData joinData acc = Resolved items ->
    NoDup acc.*1 ->
    NoDup items.*1 /\ forall k, k ∈ items.*1 <-> k ∈ keys \/ k ∈ acc.*1.
Proof.
  induction keys as [|key rest IH]; intros i acc items Hcollect Hnd;
    simpl in Hcollect.
  - simplify_eq. split; [done|]. intros k. set_solver.
  - destruct (page_get joinData i) as [d|e]; [|done]. simpl in Hcollect.
    destruct (IH (S i) _ _ Hcollect (keymap_set_NoDup acc key _ Hnd)) as [Hnd' Hkeys].
    split; [done|]. intros k. rewrite Hkeys, keymap_set_keys, elem_of_cons. tauto.
Qed.

Lemma fetchByKeys_then_entries this sch params p keyValues baseResults log out :
  fetchByKeys_then this sch params (Some p) baseResults = (log, Resolved (Some out)) ->
  Params.keys p = Some keyValues ->
  exists m,
    baseResults = Some (mkFetchByKeysResults (Some m))
    /\ NoDup (jk_results out).*1
    /\ (forall k, k ∈ (jk_results out).*1 <-> k ∈ keyValues)
    /\ forall k, k ∈ keyValues ->
         is_Some (keymap_get (jk_results out) k)
         /\ (m <> [] -> keymap_get m k = None ->
             keymap_get (jk_results out) k = Some (mkItem VNull VNull)).
Proof.
  unfold fetchByKeys_then. intros Hthen Hkeys.
  destruct baseResults as [[[m|]]|]; try (simplify_eq; fail).
  exists m. split; [done|].
  cbn [mbind option_bind] in Hthen. rewrite Hkeys in Hthen.
  destruct (_fetchByKeyResultsToArray _ _ _ _ _) as [[metaData rows]|e] eqn:Harrays;
    [|simplify_eq].
  destruct (_joiningData this sch (Some rows) (options this)) as [log' joined] eqn:Hjoin.
  destruct joined as [joinData|e]; [|simplify_eq]. cbn [bind] in Hthen.
  destruct (collect_items _ _ _ _ _) as [items|e] eqn:Hcollect; cbn [bind] in Hthen;
    simplify_eq. cbn [jk_results].
  destruct (collect_items_keys _ _ _ _ _ _ Hcollect (NoDup_nil_2 : NoDup ([] : list (value * Item value)).*1))
    as [Hnd Hexact].
  split; [exact Hnd|]. split.
  { intros k. rewrite Hexact. simpl. rewrite elem_of_nil. tauto. }
  intros k Hk. split.
  - eapply collect_items_some; [exact Hcollect | by left].
  - intros Hm Hnone.
    destruct (joiningData_null this sch rows (options this) joinData) as (rows' & -> & Hnull).
    { by rewrite Hjoin. }
    eapply collect_items_entry; [exact Hcollect | | by left].
    intros j Hj. cbn [Nat.add].
    destruct (fetchByKeyResultsToArray_missing _ _ _ _ _ Harrays Hm j k Hj Hnone)
      as [Hmeta Hrow].
    unfold array_get. rewrite Hmeta, (Hnull j Hrow). done.
Qed.

(** C2 (as claimed, refuted): the base provider resolves key 1 only; the
    mapping returned for the keys 1 and 2 has an entry for key 2, an item
    whose metadata and data are null. *)
Lemma fetchByKeys_placeholder_for_missing_key :
  base_fetchByKeys (table_base employee_table) (Some params_keys)
  = Resolved (Some (mkFetchByKeysResults (Some
      [(VNum 1, mkItem (VObj [("key", VNum 1)])
                       (Some [("id", VNum 1); ("deptId", VNum 10)]))])))
  /\ c_result (fetchByKeys (table_base employee_table) joining_dept
                 {[0 := params_keys]} (Some 0) None in_turn)
     = Resolved (Some joined_keys_1_2)
  /\ keymap_get (jk_results joined_keys_1_2) (VNum 2) = Some (mkItem VNull VNull).
Proof. repeat split; vm_compute; reflexivity. Qed.

(** C2 (amended): when [fetchByKeys] resolves to a result, the keys of the
    returned mapping are exactly the requested keys, each with one entry:
    there is an entry for every requested key and none for any other key;
    where the base provider's result is not empty and lacks a requested key,
    the entry of that key is an item whose metadata and data are null. *)
Theorem fetchByKeys_entry_for_every_key base this st l p keyValues out pending sch :
  st !! l = Some p ->
  Params.keys p = Some keyValues ->
  c_result (fetchByKeys base this st (Some l) pending sch) = Resolved (Some out) ->
  exists l' log baseParams m,
    c_log (fetchByKeys base this st (Some l) pending sch)
    = BaseFetchByKeys (Some l') :: log
    /\ c_store (fetchByKeys base this st (Some l) pending sch) !! l' = Some baseParams
    /\ base_fetchByKeys base (Some baseParams) = Resolved (Some (mkFetchByKeysResults (Some m)))
    /\ NoDup (jk_results out).*1
    /\ (forall k, k ∈ (jk_results out).*1 <-> k ∈ keyValues)
    /\ forall k, k ∈ keyValues ->
         is_Some (keymap_get (jk_results out) k)
         /\ (m <> [] -> keymap_get m k = None ->
             keymap_get (jk_results out) k = Some (mkItem VNull VNull)).
Proof.
  intros Hl Hkeys. unfold fetchByKeys, requested_attributes, deref. simpl.
  rewrite Hl. simpl.
  destruct (Params.attributes p) as [origAttr|]; simpl.
  - destruct (_seperateBaseJoinAttributes this origAttr) as [this' [baseAttributes|e]];
      [|done].
    destruct (base_fetchByKeys base _) as [baseResults|e] eqn:Hbase; [|done].
    destruct (fetchByKeys_then _ _ _ _ _) as [log r] eqn:Hthen. simpl.
    intros ->.
    destruct (fetchByKeys_then_entries _ _ _ _ _ _ _ _ Hthen Hkeys) as (m & -> & Hall).
    eexists _, _, _, m. split; [reflexivity|].
    split; [apply lookup_insert_eq|]. split; [exact Hbase | exact Hall].
  - destruct (base_fetchByKeys base _) as [baseResults|e] eqn:Hbase; [|done].
    destruct (fetchByKeys_then _ _ _ _ _) as [log r] eqn:Hthen. simpl.
    intros ->.
    destruct (fetchByKeys_then_entries _ _ _ _ _ _ _ _ Hthen Hkeys) as (m & -> & Hall).
    eexists _, _, _, m. split; [reflexivity|].
    split; [exact Hl|]. split; [exact Hbase | exact Hall].
Qed.

Lemma fetchByKeys_entry_for_every_key_witness :
  exists l' log baseParams m,
    c_log (fetchByKeys (table_base employee_table) joining_dept
             {[0 := params_keys]} (Some 0) None in_turn)
    = BaseFetchByKeys (Some l') :: log
    /\ c_store (fetchByKeys (table_base employee_table) joining_dept
                  {[0 := params_keys]} (Some 0) None in_turn) !! l' = Some baseParams
    /\ base_fetchByKeys (table_base employee_table) (Some baseParams)
       = Resolved (Some (mkFetchByKeysResults (Some m)))
    /\ NoDup (jk_results joined_keys_1_2).*1
    /\ (forall k, k ∈ (jk_results joined_keys_1_2).*1 <-> k ∈ [VNum 1; VNum 2])
    /\ forall k, k ∈ [VNum 1; VNum 2] ->
         is_Some (keymap_get (jk_results joined_keys_1_2) k)
         /\ (m <> [] -> keymap_get m k = None ->
             keymap_get (jk_results joined_keys_1_2) k = Some (mkItem VNull VNull)).
Proof.
  apply (fetchByKeys_entry_for_every_key (table_base employee_table) joining_dept
           {[0 := params_keys]} 0 params_keys [VNum 1; VNum 2] joined_keys_1_2
           None in_turn).
  - reflexivity.
  - reflexivity.
  - vm_compute. reflexivity.
Defined.

(** ** The deferred provider *)

Section DeferredProperties.

Context {candidate params result : Type}.
Variable isDataProvider : candidate -> bool.
Variable invoke : candidate -> Deferred.method -> option params -> outcome result.
Variable iterate : candidate -> option params -> nat -> outcome result.

Lemma getDataProvider_invalid (this : Deferred.DeferredDataProvider candidate) v :
  Deferred._dataProvider this = Resolved v ->
  isDataProvider v = false ->
  Deferred._getDataProvider isDataProvider this
  = (this, Rejected (Error Deferred.invalid_data_type)).
Proof.
  intros Hv Hinvalid. unfold Deferred._getDataProvider. by rewrite Hv, Hinvalid.
Qed.

Lemma forward_invalid (this : Deferred.DeferredDataProvider candidate) v m p :
  Deferred._dataProvider this = Resolved v ->
  isDataProvider v = false ->
  Deferred.failed_fast (Deferred.forward isDataProvider invoke this m p).
Proof.
  intros Hv Hinvalid. unfold Deferred.forward.
  rewrite (getDataProvider_invalid this v Hv Hinvalid). by split.
Qed.

(** C9: when the promise resolves to a value that is not a data provider,
    [fetchByKeys], [containsKeys], [fetchByOffset] and [getTotalSize] are
    rejected with the error "Invalid data type ...", the iterator promise of
    [fetchFirst] is rejected with it and so is every [next()], and no
    operation is invoked on the value. *)
Theorem deferred_invalid_value_fails_fast
    (this : Deferred.DeferredDataProvider candidate) v p :
  Deferred._dataProvider this = Resolved v ->
  isDataProvider v = false ->
  Deferred.failed_fast (Deferred.fetchByKeys isDataProvider invoke this p)
  /\ Deferred.failed_fast (Deferred.containsKeys isDataProvider invoke this p)
  /\ Deferred.failed_fast (Deferred.fetchByOffset isDataProvider invoke this p)
  /\ Deferred.failed_fast (Deferred.getTotalSize isDataProvider invoke this)
  /\ Deferred.failed_fast (Deferred.fetchFirst isDataProvider iterate this p)
  /\ forall n,
      Deferred.next
        (Deferred.c_result (Deferred.fetchFirst isDataProvider iterate this p)) n
      = Rejected (Error Deferred.invalid_data_type).
Proof.
  intros Hv Hinvalid.
  repeat split; try (by apply (forward_invalid this v)).
  all: unfold Deferred.fetchFirst;
    by rewrite (getDataProvider_invalid this v Hv Hinvalid).
Qed.

End DeferredProperties.

Lemma deferred_invalid_value_fails_fast_witness :
  Deferred.failed_fast (Deferred.fetchByKeys has_fetchFirst echo deferred_five None)
  /\ Deferred.failed_fast (Deferred.containsKeys has_fetchFirst echo deferred_five None)
  /\ Deferred.failed_fast (Deferred.fetchByOffset has_fetchFirst echo deferred_five None)
  /\ Deferred.failed_fast (Deferred.getTotalSize has_fetchFirst echo deferred_five)
  /\ Deferred.failed_fast
       (Deferred.fetchFirst has_fetchFirst (fun v p n => echo v Deferred.FetchFirst p)
                            deferred_five None)
  /\ forall n,
      Deferred.next
        (Deferred.c_result
           (Deferred.fetchFirst has_fetchFirst
              (fun v p n => echo v Deferred.FetchFirst p) deferred_five None)) n
      = Rejected (Error Deferred.invalid_data_type).
Proof.
  apply (deferred_invalid_value_fails_fast has_fetchFirst echo
           (fun v p n => echo v Deferred.FetchFirst p) deferred_five (VNum 5) None).
  - reflexivity.
  - reflexivity.
Defined.

(** * Further properties *)

(** ** Records *)

Lemma get_set_field r f g v :
  get_field (set_field r f v) g = if String.eqb f g then v else get_field r g.
Proof.
  induction r as [|[k w] r IH]; simpl.
  - by destruct (String.eqb f g).
  - destruct (String.eqb k f) eqn:Hkf; simpl.
    + apply String.eqb_eq in Hkf. subst k. by destruct (String.eqb f g).
    + rewrite IH. destruct (String.eqb k g) eqn:Hkg; [|done].
      apply String.eqb_eq in Hkg. subst k. by rewrite (String.eqb_sym f g), Hkf.
Qed.

Lemma has_set_field r f g v :
  has_field (set_field r f v) g = String.eqb f g || has_field r g.
Proof.
  induction r as [|[k w] r IH]; simpl.
  - by rewrite orb_false_r.
  - destruct (String.eqb k f) eqn:Hkf; simpl.
    + apply String.eqb_eq in Hkf. subst k.
      by destruct (String.eqb f g).
    + rewrite IH. destruct (String.eqb k g), (String.eqb f g); done.
Qed.

Lemma eqb_false_ne (f g : string) : f <> g -> String.eqb f g = false.
Proof. intros H. by apply String.eqb_neq. Qed.

(** ** The constructor *)

Lemma array_put_end {A : Type} (hole : A) arr x :
  array_put hole arr (length arr) x = arr ++ [x].
Proof.
  unfold array_put. rewrite decide_False; [|lia]. by rewrite Nat.sub_diag.
Qed.

Lemma array_put_beyond {A : Type} (hole : A) arr i x :
  length arr <= i ->
  array_put hole arr i x = arr ++ replicate (i - length arr) hole ++ [x].
Proof. intros Hi. unfold array_put. by rewrite decide_False; [|lia]. Qed.

(** The loop of [_getJoinSpec]: it throws at the first join whose
    information lacks a [foreignKeyMapping]; otherwise it appends one entry
    per join to [_fks] and [_joinDPs], and writes [_transform] at the indices
    of the joins that carry information only. *)
Lemma join_spec_loop_spec js :
  forall i s,
    length (js_fks s) = i ->
    length (js_joinDPs s) = i ->
    length (js_transform s) <= i ->
    if forallb has_mapping js then
      exists s',
        join_spec_loop i js s = Resolved s'
        /\ js_fks s' = js_fks s ++ map (fun e => (e.2 ≫= Info.mapping) ≫= fk_of_mapping) js
        /\ js_joinDPs s' = js_joinDPs s ++ map (fun e => e.2 ≫= Info.joinedDataProvider) js
        /\ length (js_transform s') <= i + length js
        /\ (forall k, k < i ->
              mjoin (js_transform s' !! k) = mjoin (js_transform s !! k))
        /\ (forall k e, js !! k = Some e ->
              mjoin (js_transform s' !! (i + k)) = (e.2 ≫= Info.mapping) ≫= Info.transform)
        /\ match last js with
           | Some (_, Some _) => length (js_transform s') = i + length js
           | Some (_, None) => length (js_transform s') < i + length js
           | None => js_transform s' = js_transform s
           end
    else join_spec_loop i js s = Rejected (TypeError "joinInfo.foreignKeyMapping.foreignKey").
Proof.
  induction js as [|[alias info] rest IH]; intros i s Hfks Hdps Htr.
  - simpl. exists s. rewrite !app_nil_r. repeat split; try done; lia.
  - cbn [forallb]. unfold has_mapping at 1. cbn [snd].
    assert (Hstep : forall s1 tr,
               join_spec_step i s info = Resolved s1 ->
               js_fks s1 = js_fks s ++ [(info ≫= Info.mapping) ≫= fk_of_mapping] ->
               js_joinDPs s1 = js_joinDPs s ++ [info ≫= Info.joinedDataProvider] ->
               (forall k, k < i ->
                  mjoin (js_transform s1 !! k) = mjoin (js_transform s !! k)) ->
               mjoin (js_transform s1 !! i) = tr ->
               tr = (info ≫= Info.mapping) ≫= Info.transform ->
               match info with
               | Some _ => length (js_transform s1) = S i
               | None => js_transform s1 = js_transform s
               end ->
               if forallb has_mapping rest then
                 exists s',
                   join_spec_loop i ((alias, info) :: rest) s = Resolved s'
                   /\ js_fks s'
                      = js_fks s ++ map (fun e => (e.2 ≫= Info.mapping) ≫= fk_of_mapping)
                                       ((alias, info) :: rest)
                   /\ js_joinDPs s'
                      = js_joinDPs s ++ map (fun e => e.2 ≫= Info.joinedDataProvider)
                                           ((alias, info) :: rest)
                   /\ length (js_transform s') <= i + length ((alias, info) :: rest)
                   /\ (forall k, k < i ->
                         mjoin (js_transform s' !! k) = mjoin (js_transform s !! k))
                   /\ (forall k e, ((alias, info) :: rest) !! k = Some e ->
                         mjoin (js_transform s' !! (i + k))
                         = (e.2 ≫= Info.mapping) ≫= Info.transform)
                   /\ match last ((alias, info) :: rest) with
                      | Some (_, Some _) =>
                          length (js_transform s') = i + length ((alias, info) :: rest)
                      | Some (_, None) =>
                          length (js_transform s') < i + length ((alias, info) :: rest)
                      | None => js_transform s' = js_transform s
                      end
               else join_spec_loop i ((alias, info) :: rest) s
                    = Rejected (TypeError "joinInfo.foreignKeyMapping.foreignKey")).
    { intros s1 tr Hs1 Hf Hd Hbelow Hat Htreq Hlen.
      assert (Hlen1 : length (js_transform s1) <= S i).
      { destruct info; [lia | rewrite Hlen; lia]. }
      specialize (IH (S i) s1).
      destruct (forallb has_mapping rest).
      - destruct IH as (s' & Hloop & Hf' & Hd' & Hlen' & Hbelow' & Hat' & Hlast).
        { rewrite Hf, length_app. simpl. lia. }
        { rewrite Hd, length_app. simpl. lia. }
        { exact Hlen1. }
        exists s'. cbn [join_spec_loop snd]. rewrite Hs1. cbn [bind].
        split; [exact Hloop|].
        split; [by rewrite Hf', Hf, <- app_assoc|].
        split; [by rewrite Hd', Hd, <- app_assoc|].
        split; [simpl; lia|].
        split; [intros k Hk; rewrite Hbelow'; [by apply Hbelow | lia]|].
        split.
        + intros [|k] e Hk; simpl in Hk.
          * injection Hk as <-. cbn [snd].
            rewrite Nat.add_0_r, Hbelow'; [|lia]. by rewrite Hat, Htreq.
          * rewrite <- Nat.add_succ_comm. by apply Hat'.
        + cbn [last]. destruct rest as [|e rest].
          * simpl in Hlast. rewrite Hlast. simpl.
            destruct info; [lia | rewrite Hlen; lia].
          * revert Hlast.
            change (last ((alias, info) :: e :: rest)) with (last (e :: rest)).
            cbn [length].
            destruct (last (e :: rest)) as [[? [?|]]|] eqn:Hl; intros Hlast; try lia.
            by apply last_None in Hl.
      - cbn [join_spec_loop snd]. rewrite Hs1. cbn [bind]. apply IH.
        + rewrite Hf, length_app. simpl. lia.
        + rewrite Hd, length_app. simpl. lia.
        + exact Hlen1. }
    destruct info as [info|].
    + destruct (Info.mapping info) as [m|] eqn:Hm; cbn [andb].
      * eapply Hstep.
        -- unfold join_spec_step. rewrite Hm. reflexivity.
        -- simpl. rewrite Hm. simpl. by rewrite <- Hfks, array_put_end.
        -- simpl. by rewrite <- Hdps, array_put_end.
        -- intros k Hk. simpl. rewrite (array_put_beyond _ _ _ _ Htr).
           destruct (decide (k < length (js_transform s))) as [Hlt|Hge].
           ++ by rewrite lookup_app_l.
           ++ rewrite lookup_app_r, lookup_app_l, lookup_replicate_2,
                (lookup_ge_None_2 (js_transform s));
                [done | lia | lia | rewrite length_replicate; lia | lia].
        -- simpl. rewrite (array_put_beyond _ _ _ _ Htr).
           rewrite lookup_app_r, lookup_app_r; rewrite ?length_replicate; [|lia..].
           replace (i - length (js_transform s) - (i - length (js_transform s))) with 0
             by lia.
           reflexivity.
        -- simpl. by rewrite Hm.
        -- simpl. rewrite (array_put_beyond _ _ _ _ Htr), !length_app, length_replicate.
           simpl. lia.
      * cbn [join_spec_loop snd]. unfold join_spec_step. rewrite Hm. reflexivity.
    + cbn [andb]. eapply Hstep.
      * reflexivity.
      * simpl. by rewrite <- Hfks, array_put_end.
      * simpl. by rewrite <- Hdps, array_put_end.
      * done.
      * simpl. by rewrite lookup_ge_None_2.
      * done.
      * done.
Qed.

(** X1: the constructor fails when [options.joins] is missing and when a
    join carries information without a [foreignKeyMapping], and only then.
    Otherwise [_joinAlias], [_fks] and [_joinDPs] have one entry per key of
    [joins], entry [i] describing the [i]-th alias: a join without
    information has neither a descriptor nor a provider, and [foreignKey]
    takes precedence over [foreignKeys].  [_transform] is written for the
    joins that carry information only: reading it at index [i] gives the
    transform of the [i]-th join or nothing, and the array is as long as the
    others exactly when the last join carries information. *)
Theorem getJoinSpec_aligned opts :
  match joins opts with
  | None => _getJoinSpec opts = Rejected (TypeError "Object.keys(options.joins)")
  | Some js =>
      if forallb has_mapping js then
        exists this,
          _getJoinSpec opts = Resolved this
          /\ _joinAlias this = js.*1
          /\ length (_fks this) = length js
          /\ length (_joinDPs this) = length js
          /\ length (_transform this) <= length js
          /\ (forall alias info,
                last js = Some (alias, Some info) ->
                length (_transform this) = length js)
          /\ (forall alias,
                last js = Some (alias, None) -> length (_transform this) < length js)
          /\ forall i alias info,
              js !! i = Some (alias, info) ->
              _joinAlias this !! i = Some alias
              /\ _fks this !! i
                 = Some ((info ≫= Info.mapping) ≫= fun m =>
                           match Info.foreignKey m with
                           | Some f => Some (FKField f)
                           | None => FKFields <$> Info.foreignKeys m
                           end)
              /\ mjoin (_transform this !! i) = (info ≫= Info.mapping) ≫= Info.transform
              /\ _joinDPs this !! i = Some (info ≫= Info.joinedDataProvider)
      else _getJoinSpec opts
           = Rejected (TypeError "joinInfo.foreignKeyMapping.foreignKey")
  end.
Proof.
  unfold _getJoinSpec. destruct (joins opts) as [js|]; [|done].
  pose proof (join_spec_loop_spec js 0 (mkJoinSpec [] [] []) eq_refl eq_refl
                (Nat.le_refl 0)) as Hloop.
  destruct (forallb has_mapping js); [|by rewrite Hloop].
  destruct Hloop as (s & -> & Hf & Hd & Hlen & _ & Hat & Hlast).
  simpl in Hf, Hd, Hlen, Hat. eexists. split; [reflexivity|]. simpl.
  rewrite Hf, Hd, !length_map.
  split; [done|]. split; [done|]. split; [done|]. split; [done|].
  split; [intros alias info Hl; by rewrite Hl in Hlast|].
  split; [intros alias Hl; by rewrite Hl in Hlast|].
  intros i alias info Hi.
  rewrite !lookup_map, Hi. simpl. rewrite (Hat i _ Hi). simpl.
  split; [done|]. split; [reflexivity | done].
Qed.

(** ** The foreign-key resolver *)

(** The key lists follow the descriptors and the rows in number. *)
Lemma getFKValues_lengths rows fks transform :
  length (_getFKValues rows fks transform) = length fks
  /\ forall i vals,
      _getFKValues rows fks transform !! i = Some vals ->
      length vals = length rows.
Proof.
  split.
  - unfold _getFKValues. apply length_imap.
  - intros i vals. rewrite getFKValues_lookup.
    destruct (fks !! i); simpl; [|done].
    intros [= <-]. apply length_map.
Qed.

(** X2: [_getFKValues] yields one list of keys per declared foreign key
    and, in each, one key per row of the page. *)
Theorem getFKValues_shape rows fks transform :
  length (_getFKValues rows fks transform) = length fks
  /\ forall i vals,
      _getFKValues rows fks transform !! i = Some vals ->
      length vals = length rows.
Proof. exact (getFKValues_lengths rows fks transform). Qed.

(** X3: a null row, and any row of an alias without a descriptor, resolves
    to the key [null], whether or not a transform is registered. *)
Theorem getFKValues_null rows fks transform i j fk row :
  fks !! i = Some fk ->
  rows !! j = Some row ->
  row = None \/ fk = None ->
  _getFKValues rows fks transform !! i ≫= (.!! j) = Some VNull.
Proof.
  intros Hfk Hrow Hnull. rewrite getFKValues_lookup, Hfk. simpl.
  rewrite lookup_map, Hrow. simpl.
  destruct Hnull as [-> | ->]; [done|]. by destruct row.
Qed.

Lemma getFKValues_null_witness :
  _getFKValues employees [Some (FKField "deptId"); None] [] !! 1 ≫= (.!! 0)
  = Some VNull.
Proof.
  apply (getFKValues_null employees [Some (FKField "deptId"); None] [] 1 0 None
           (Some [("id", VNum 1); ("deptId", VNum 10); ("mgrId", VNum 7)])).
  - reflexivity.
  - reflexivity.
  - right. reflexivity.
Defined.

Lemma transformParam_fold r fs f :
  forall acc,
    get_field (fold_left (fun o g => set_field o g (get_field r g)) fs acc) f
    = (if bool_decide (f ∈ fs) then get_field r f else get_field acc f)
    /\ has_field (fold_left (fun o g => set_field o g (get_field r g)) fs acc) f
       = bool_decide (f ∈ fs) || has_field acc f.
Proof.
  induction fs as [|g fs IH]; intros acc; simpl.
  - done.
  - destruct (IH (set_field acc g (get_field r g))) as [-> ->].
    rewrite get_set_field, has_set_field.
    destruct (decide (g = f)) as [->|Hne].
    + rewrite String.eqb_refl.
      rewrite (bool_decide_eq_true_2 (f ∈ f :: fs)); [|set_solver].
      split; [by case_bool_decide | by rewrite orb_true_r].
    + rewrite (eqb_false_ne g f Hne). simpl.
      destruct (decide (f ∈ fs)) as [Hin|Hnin].
      * rewrite !bool_decide_eq_true_2; [done | set_solver | done].
      * rewrite !bool_decide_eq_false_2; [done | set_solver | done].
Qed.

(** X4: with a transform registered, the key of a non-null row is what the
    transform returns for an object that holds the row's value for each
    field of the descriptor and has no other field. *)
Theorem getFKValues_with_transform rows fks transform i j d t r :
  fks !! i = Some (Some d) ->
  transform !! i = Some (Some t) ->
  rows !! j = Some (Some r) ->
  _getFKValues rows fks transform !! i ≫= (.!! j) = Some (t (transformParam r d))
  /\ forall f,
      get_field (transformParam r d) f
      = (if bool_decide (f ∈ fk_fields d) then get_field r f else VUndefined)
      /\ has_field (transformParam r d) f = bool_decide (f ∈ fk_fields d).
Proof.
  intros Hfk Htr Hrow. split.
  - rewrite getFKValues_lookup, Hfk. simpl.
    rewrite lookup_map, Hrow. simpl. by rewrite Htr.
  - intros f. destruct d as [g|fs]; simpl.
    + rewrite String.eqb_sym. destruct (decide (f = g)) as [->|Hne].
      * rewrite String.eqb_refl, bool_decide_eq_true_2; [done | set_solver].
      * rewrite (eqb_false_ne f g Hne), bool_decide_eq_false_2; [done | set_solver].
    + destruct (transformParam_fold r fs f []) as [-> ->]. simpl.
      by rewrite orb_false_r.
Qed.

(** ** The join step: what is fetched *)

Lemma fetched_aliases_app l1 l2 :
  fetched_aliases (l1 ++ l2) = fetched_aliases l1 ++ fetched_aliases l2.
Proof. apply omap_app. Qed.


Lemma fetched_aliases_warning alias c : fetched_aliases (warning alias c) = [].
Proof. unfold warning. by repeat case_match. Qed.


(** One round of the first loop, for a provider that is there. *)
Lemma issue_fetches_cons this fkValues i alias rest joinDP :
  mjoin (_joinDPs this !! i) = Some joinDP ->
  issue_fetches this fkValues i (alias :: rest)
  = (warning alias (dp_getCapability joinDP "fetchByKeys")
       ++ match join_request this fkValues i alias with
          | Some p => [JoinedFetchByKeys alias p]
          | None => []
          end
       ++ (issue_fetches this fkValues (S i) rest).1,
     ps <- (issue_fetches this fkValues (S i) rest).2 ;;
     Resolved ((dp_fetchByKeys joinDP <$> join_request this fkValues i alias) :: ps)).
Proof.
  intros Hdp. simpl. rewrite Hdp. unfold join_request.
  destruct (issue_fetches this fkValues (S i) rest) as [later promises].
  destruct (_mapJoinAttributes this) as [m|]; [destruct (m !! alias)|]; done.
Qed.

Lemma issue_fetches_missing this fkValues i alias rest :
  mjoin (_joinDPs this !! i) = None ->
  issue_fetches this fkValues i (alias :: rest)
  = ([], Rejected (TypeError "joinDP.getCapability")).
Proof. intros Hdp. simpl. by rewrite Hdp. Qed.

Lemma join_request_requested this fkValues i alias :
  is_Some (join_request this fkValues i alias) <-> alias_requested this alias = true.
Proof.
  unfold join_request, alias_requested.
  destruct (_mapJoinAttributes this) as [m|]; [|by split; eauto].
  rewrite bool_decide_eq_true, fmap_is_Some. done.
Qed.

(** With every provider there, the first loop completes. *)
Lemma issue_fetches_present this fkValues aliases :
  forall i,
    (forall k, k < length aliases -> is_Some (mjoin (_joinDPs this !! (i + k)))) ->
    exists ps, (issue_fetches this fkValues i aliases).2 = Resolved ps.
Proof.
  induction aliases as [|alias rest IH]; intros i Hall.
  - by eexists.
  - destruct (Hall 0 ltac:(simpl; lia)) as [dp Hdp]. rewrite Nat.add_0_r in Hdp.
    rewrite (issue_fetches_cons _ _ _ _ _ _ Hdp). simpl.
    destruct (IH (S i)) as [ps Hps].
    { intros k Hk. rewrite Nat.add_succ_comm. apply Hall. simpl. lia. }
    rewrite Hps. by eexists.
Qed.

(** When the first loop completes, every provider was there, and entry
    [k] of [promises] is the fetch of alias [k], or [null] without one. *)
Lemma issue_fetches_resolved this fkValues aliases :
  forall i ps,
    (issue_fetches this fkValues i aliases).2 = Resolved ps ->
    length ps = length aliases
    /\ forall k alias,
        aliases !! k = Some alias ->
        exists dp,
          mjoin (_joinDPs this !! (i + k)) = Some dp
          /\ ps !! k = Some (dp_fetchByKeys dp <$> join_request this fkValues (i + k) alias).
Proof.
  induction aliases as [|alias rest IH]; intros i ps Hps.
  - simpl in Hps. simplify_eq. split; [done|]. intros k a Hk. done.
  - destruct (mjoin (_joinDPs this !! i)) as [dp|] eqn:Hdp.
    + rewrite (issue_fetches_cons _ _ _ _ _ _ Hdp) in Hps. simpl in Hps.
      destruct ((issue_fetches this fkValues (S i) rest).2) as [ps'|e] eqn:Hrest;
        [|done].
      simpl in Hps. simplify_eq.
      destruct (IH (S i) ps' Hrest) as [Hlen Hlook]. split; [simpl; lia|].
      intros [|k] a Hk; simpl in Hk.
      * simplify_eq. exists dp. by rewrite Nat.add_0_r.
      * destruct (Hlook k a Hk) as (dp' & Hdp' & Hk').
        exists dp'. by rewrite <- Nat.add_succ_comm.
    + by rewrite (issue_fetches_missing _ _ _ _ _ Hdp) in Hps.
Qed.

(** The fetches logged by a completed first loop: one for each requested
    alias, in declaration order. *)
Lemma issue_fetches_log this fkValues aliases :
  forall i ps,
    (issue_fetches this fkValues i aliases).2 = Resolved ps ->
    fetched_aliases (issue_fetches this fkValues i aliases).1
    = List.filter (alias_requested this) aliases.
Proof.
  induction aliases as [|alias rest IH]; intros i ps Hps; [done|].
  destruct (mjoin (_joinDPs this !! i)) as [dp|] eqn:Hdp.
  - rewrite (issue_fetches_cons _ _ _ _ _ _ Hdp) in *. simpl in Hps.
    destruct ((issue_fetches this fkValues (S i) rest).2) as [ps'|e] eqn:Hrest;
      [|done].
    cbn [fst]. rewrite !fetched_aliases_app, fetched_aliases_warning.
    rewrite (IH (S i) ps' Hrest). simpl.
    pose proof (join_request_requested this fkValues i alias) as Hreq.
    destruct (join_request this fkValues i alias) as [p|];
      destruct (alias_requested this alias); try done.
    + destruct Hreq as [Hreq _]. by specialize (Hreq ltac:(eauto)).
    + destruct Hreq as [_ Hreq]. by destruct (Hreq eq_refl).
  - by rewrite (issue_fetches_missing _ _ _ _ _ Hdp) in Hps.
Qed.

(** Whatever happens later, a logged fetch is for a requested alias, and
    it carries the attributes stored for that alias. *)
Lemma issue_fetches_event this fkValues aliases :
  forall i alias p,
    JoinedFetchByKeys alias p ∈ (issue_fetches this fkValues i aliases).1 ->
    exists k, aliases !! k = Some alias
              /\ join_request this fkValues (i + k) alias = Some p.
Proof.
  induction aliases as [|a rest IH]; intros i alias p Hin.
  - simpl in Hin. by apply elem_of_nil in Hin.
  - destruct (mjoin (_joinDPs this !! i)) as [dp|] eqn:Hdp.
    + rewrite (issue_fetches_cons _ _ _ _ _ _ Hdp) in Hin. cbn [fst] in Hin.
      rewrite !elem_of_app in Hin. destruct Hin as [Hw | [Hc | Hl]].
      * apply warning_no_fetch in Hw. discriminate.
      * destruct (join_request this fkValues i a) as [q|] eqn:Hq;
          [|by apply elem_of_nil in Hc].
        apply list_elem_of_singleton in Hc. simplify_eq.
        exists 0. by rewrite Nat.add_0_r.
      * destruct (IH (S i) alias p Hl) as (k & Hk & Hreq).
        exists (S k). by rewrite <- Nat.add_succ_comm.
    + rewrite (issue_fetches_missing _ _ _ _ _ Hdp) in Hin.
      by apply elem_of_nil in Hin.
Qed.

(** A requested alias whose provider, and every provider declared before
    it, is there, is fetched with the object built for it. *)
Lemma issue_fetches_sent this fkValues aliases :
  forall i k a p,
    aliases !! k = Some a ->
    (forall k', k' <= k -> is_Some (mjoin (_joinDPs this !! (i + k')))) ->
    join_request this fkValues (i + k) a = Some p ->
    JoinedFetchByKeys a p ∈ (issue_fetches this fkValues i aliases).1.
Proof.
  induction aliases as [|alias rest IH]; intros i k a p Hk Hpresent Hreq; [done|].
  destruct (Hpresent 0 ltac:(lia)) as [dp Hdp]. rewrite Nat.add_0_r in Hdp.
  rewrite (issue_fetches_cons _ _ _ _ _ _ Hdp). cbn [fst].
  rewrite !elem_of_app. right. destruct k as [|k]; simpl in Hk.
  - simplify_eq. rewrite Nat.add_0_r in Hreq. rewrite Hreq. left. by left.
  - right. apply (IH (S i) k a p Hk).
    + intros k' Hk'. rewrite Nat.add_succ_comm. apply Hpresent. lia.
    + by rewrite Nat.add_succ_comm.
Qed.

(** ** The foreign-key resolver and the keys sent to a joined provider *)

(** C7: without a transform, the key resolved for a non-null row is the
    list of the row's field values in descriptor order for a composite
    descriptor and the field value itself for a single field; every fetch
    issued for the alias holds that key at the row's position; and when
    joins are configured, the alias is requested, and its provider and those
    declared before it are there, the join step does call the joined provider
    of the alias with a key list that holds that key at the row's position.
    The aliases are the keys of the [joins] object, hence distinct. *)
Theorem getFKValues_without_transform this sch rows opts i j alias d r :
  NoDup (_joinAlias this) ->
  _joinAlias this !! i = Some alias ->
  _fks this !! i = Some (Some d) ->
  mjoin (_transform this !! i) = None ->
  rows !! j = Some (Some r) ->
  let key := match d with
             | FKFields fs => VArr (map (get_field r) fs)
             | FKField f => get_field r f
             end in
  (_getFKValues rows (_fks this) (_transform this) !! i ≫= (.!! j)) = Some key
  /\ (forall p,
        JoinedFetchByKeys alias p ∈ (_joiningData this sch (Some rows) opts).1 ->
        jf_keys p ≫= (.!! j) = Some key)
  /\ (joins opts <> None ->
      (forall k, k <= i -> is_Some (mjoin (_joinDPs this !! k))) ->
      alias_requested this alias = true ->
      exists p,
        JoinedFetchByKeys alias p ∈ (_joiningData this sch (Some rows) opts).1
        /\ jf_keys p ≫= (.!! j) = Some key).
Proof.
  intros Hnodup Halias Hfk Htr Hrow key.
  set (fkValues := _getFKValues rows (_fks this) (_transform this)).
  assert (Hkey : fkValues !! i ≫= (.!! j) = Some key).
  { unfold fkValues. rewrite getFKValues_lookup, Hfk. simpl.
    rewrite list_lookup_fmap, Hrow. simpl. by rewrite Htr. }
  assert (Hlog : joins opts <> None ->
                 (_joiningData this sch (Some rows) opts).1
                 = (issue_fetches this fkValues 0 (_joinAlias this)).1).
  { intros Hjoins. unfold _joiningData. destruct rows as [|r0 rows]; [done|].
    destruct (joins opts); [|done]. fold fkValues.
    by destruct (issue_fetches this fkValues 0 (_joinAlias this)). }
  split; [exact Hkey|]. split.
  - intros p Hin. destruct (joins opts) as [js|] eqn:Hjoins.
    + rewrite Hlog in Hin; [|done].
      apply issue_fetches_keys in Hin as (k & Hk & Hkeys). simpl in Hkeys.
      rewrite Hkeys. by rewrite (NoDup_lookup _ _ _ _ Hnodup Hk Halias).
    + unfold _joiningData in Hin. rewrite Hjoins in Hin.
      destruct rows as [|r0 rows]; by apply elem_of_nil in Hin.
  - intros Hjoins Hpresent Hreq. rewrite (Hlog Hjoins).
    destruct (proj2 (join_request_requested this fkValues i alias) Hreq) as [p Hp].
    exists p. split.
    + by apply (issue_fetches_sent this fkValues (_joinAlias this) 0 i).
    + assert (Hkeys : jf_keys p = fkValues !! i).
      { unfold join_request in Hp.
        destruct (_mapJoinAttributes this) as [m|]; [|by simplify_eq].
        destruct (m !! alias); simpl in Hp; by simplify_eq. }
      by rewrite Hkeys.
Qed.

Lemma getFKValues_without_transform_witness :
  (_getFKValues [Some [("a", VNum 1); ("b", VNum 2)]]
                (_fks joining_team_site) (_transform joining_team_site) !! 0
     ≫= (.!! 0)) = Some (VArr [VNum 1; VNum 2])
  /\ exists p,
      JoinedFetchByKeys "team" p
        ∈ (_joiningData joining_team_site in_turn
                        (Some [Some [("a", VNum 1); ("b", VNum 2)]]) joins_team_site).1
      /\ jf_keys p ≫= (.!! 0) = Some (VArr [VNum 1; VNum 2]).
Proof.
  destruct (getFKValues_without_transform joining_team_site in_turn
              [Some [("a", VNum 1); ("b", VNum 2)]] joins_team_site 0 0 "team"
              (FKFields ["a"; "b"]) [("a", VNum 1); ("b", VNum 2)])
    as (Hkey & _ & Hsent).
  - repeat constructor; set_solver.
  - reflexivity.
  - reflexivity.
  - reflexivity.
  - reflexivity.
  - split; [exact Hkey|]. apply Hsent.
    + discriminate.
    + intros [|k] Hk; [by eexists | lia].
    + reflexivity.
Defined.

(** ** [Promise.all] *)

Lemma first_rejection_none {R : Type} settle (ps : list (option (outcome R))) :
  forall i,
    first_rejection settle i ps = None
    <-> forall k e, ps !! k <> Some (Some (Rejected e)).
Proof.
  induction ps as [|p ps IH]; intros i; simpl.
  - split; [|done]. intros _ k e. by rewrite lookup_nil.
  - specialize (IH (S i)). destruct p as [[r|e0]|].
    + rewrite IH. split.
      * intros H [|k] e; [done | apply H].
      * intros H k e. apply (H (S k) e).
    + split.
      * destruct (first_rejection settle (S i) ps) as [[t ?]|]; [|done].
        by destruct (t <? settle i).
      * intros H. by destruct (H 0 e0).
    + rewrite IH. split.
      * intros H [|k] e; [done | apply H].
      * intros H k e. apply (H (S k) e).
Qed.

(** The rejection that [Promise.all] passes on is that of a rejected
    promise before which no other rejected promise settles. *)
Lemma first_rejection_some {R : Type} settle (ps : list (option (outcome R))) :
  forall i t e,
    first_rejection settle i ps = Some (t, e) ->
    exists k,
      ps !! k = Some (Some (Rejected e))
      /\ t = settle (i + k)
      /\ forall k' e',
          ps !! k' = Some (Some (Rejected e')) ->
          k' = k \/ settles_before settle (i + k) (i + k').
Proof.
  unfold settles_before.
  induction ps as [|p ps IH]; intros i t e Hfirst; simpl in Hfirst; [done|].
  specialize (IH (S i)).
  assert (Hshift : forall t' e',
             first_rejection settle (S i) ps = Some (t', e') ->
             exists k,
               ps !! k = Some (Some (Rejected e'))
               /\ t' = settle (i + S k)
               /\ forall k' e'',
                   ps !! k' = Some (Some (Rejected e'')) ->
                   k' = k \/ settle (i + S k) < settle (i + S k')
                   \/ (settle (i + S k) = settle (i + S k') /\ k < k')).
  { intros t' e' Hl. destruct (IH t' e' Hl) as (k & Hk & Ht & Hmin).
    exists k. rewrite <- !Nat.add_succ_comm. split; [done|]. split; [done|].
    intros k' e'' Hk'. specialize (Hmin k' e'' Hk').
    rewrite <- !Nat.add_succ_comm. lia. }
  destruct p as [[r|e0]|].
  - destruct (Hshift t e Hfirst) as (k & Hk & Ht & Hmin).
    exists (S k). split; [done|]. split; [done|].
    intros [|k'] e' Hk'; [done|]. specialize (Hmin k' e' Hk'). lia.
  - destruct (first_rejection settle (S i) ps) as [[t' e']|] eqn:Hlater.
    + destruct (Hshift t' e' eq_refl) as (k & Hk & Ht & Hmin).
      destruct (t' <? settle i) eqn:Hlt.
      * apply Nat.ltb_lt in Hlt. simplify_eq.
        exists (S k). split; [done|]. split; [done|].
        intros [|k'] e'' Hk'.
        -- right. rewrite Nat.add_0_r. lia.
        -- specialize (Hmin k' e'' Hk'). lia.
      * apply Nat.ltb_ge in Hlt. simplify_eq.
        exists 0. split; [done|]. split; [by rewrite Nat.add_0_r|].
        intros [|k'] e'' Hk'; [by left|]. right.
        specialize (Hmin k' e'' Hk'). rewrite Nat.add_0_r.
        destruct Hmin as [-> | Hmin]; lia.
    + simplify_eq. exists 0. split; [done|]. split; [by rewrite Nat.add_0_r|].
      intros [|k'] e'' Hk'; [by left|].
      by destruct (proj1 (first_rejection_none settle ps (S i)) Hlater k' e'').
  - destruct (Hshift t e Hfirst) as (k & Hk & Ht & Hmin).
    exists (S k). split; [done|]. split; [done|].
    intros [|k'] e' Hk'; [done|]. specialize (Hmin k' e' Hk'). lia.
Qed.

Lemma promise_all_length {R : Type} settle (ps : list (option (outcome R))) :
  forall rs, promise_all settle ps = Resolved rs -> length rs = length ps.
Proof.
  unfold promise_all. intros rs.
  destruct (first_rejection settle 0 ps) as [[t e]|]; [done|].
  intros [= <-]. apply length_map.
Qed.

Lemma promise_all_lookup {R : Type} settle (ps : list (option (outcome R))) :
  forall rs k,
    promise_all settle ps = Resolved rs ->
    rs !! k = fulfilled <$> ps !! k
    /\ forall e, ps !! k <> Some (Some (Rejected e)).
Proof.
  unfold promise_all. intros rs k.
  destruct (first_rejection settle 0 ps) as [[t e]|] eqn:Hfirst; [done|].
  intros [= <-]. split; [apply lookup_map|].
  apply (proj1 (first_rejection_none settle ps 0) Hfirst).
Qed.

Lemma promise_all_first_rejected {R : Type} settle (ps : list (option (outcome R))) :
  forall i e,
    ps !! i = Some (Some (Rejected e)) ->
    (forall k e', ps !! k = Some (Some (Rejected e')) -> k <> i ->
                  settles_before settle i k) ->
    promise_all settle ps = Rejected e.
Proof.
  intros i e Hi Hfirst. unfold promise_all.
  destruct (first_rejection settle 0 ps) as [[t e0]|] eqn:Hrej.
  - destruct (first_rejection_some settle ps 0 t e0 Hrej) as (k & Hk & _ & Hmin).
    destruct (decide (k = i)) as [->|Hne]; [congruence|].
    specialize (Hfirst k e0 Hk Hne). specialize (Hmin i e Hi).
    unfold settles_before in *. simpl in Hmin. lia.
  - by destruct (proj1 (first_rejection_none settle ps 0) Hrej i e).
Qed.

(** What a completed join step went through. *)
Lemma joinAlias_seen_later this w : _joinAlias (seen_later this w) = _joinAlias this.
Proof. by destruct w. Qed.

Lemma joiningData_inv this sch rows opts log out :
  _joiningData this sch (Some rows) opts = (log, Resolved out) ->
  (out = Some rows /\ log = [] /\ (rows = [] \/ joins opts = None))
  \/ (rows <> [] /\ joins opts <> None
      /\ exists ps fetched joined,
          issue_fetches this (_getFKValues rows (_fks this) (_transform this)) 0
                        (_joinAlias this) = (log, Resolved ps)
          /\ promise_all (settles sch) ps = Resolved fetched
          /\ merge_results (seen_later this (written sch))
                           (_getFKValues rows (_fks this) (_transform this)) 0
                           fetched [] [] rows = Resolved joined
          /\ out = Some joined).
Proof.
  unfold _joiningData. destruct rows as [|r rows].
  - intros [= <- <-]. left. eauto.
  - destruct (joins opts) as [js|]; [|intros [= <- <-]; left; eauto].
    destruct (issue_fetches _ _ _ _) as [log' [ps|e]] eqn:Hissue; [|intros [= ]].
    simpl.
    destruct (promise_all _ ps) as [fetched|e] eqn:Hall; [|intros [= ]]. simpl.
    destruct (merge_results _ _ _ _ _ _ _) as [joined|e] eqn:Hmerge; [|intros [= ]].
    simpl. intros [= <- <-]. right. split; [done|]. split; [done|].
    by exists ps, fetched, joined.
Qed.

(** ** The join step: what it does to the rows *)

Lemma assignAliasData_lookup baseData alias aliasData j :
  _assignAliasData baseData alias aliasData !! j
  = (fun row => (fun r => set_field r alias (array_get aliasData j)) <$> row)
      <$> baseData !! j.
Proof.
  unfold _assignAliasData. rewrite list_lookup_imap.
  by destruct (baseData !! j) as [[r|]|].
Qed.

Lemma lookup_fmap_length {A B : Type} (f : A -> B) (l1 l2 : list A) :
  (forall j, f <$> l1 !! j = f <$> l2 !! j) -> length l1 = length l2.
Proof.
  intros Heq. rewrite <- (length_fmap f l1), <- (length_fmap f l2). f_equal.
  apply list_eq. intros j. by rewrite !list_lookup_fmap.
Qed.

(** The merge changes neither the number of rows nor which of them are
    null. *)
Lemma merge_results_shape this fkValues fetched :
  forall i resultMetadata resultData baseData out,
    merge_results this fkValues i fetched resultMetadata resultData baseData
    = Resolved out ->
    forall j, is_null_row <$> out !! j = is_null_row <$> baseData !! j.
Proof.
  induction fetched as [|r rest IH]; intros i rm rd baseData out Hmerge j;
    simpl in Hmerge.
  - by simplify_eq.
  - destruct (alias_selected this i).
    + destruct (_fetchByKeyResultsToArray _ _ _ _ _) as [arrays|e]; [|done].
      simpl in Hmerge. rewrite (IH _ _ _ _ _ Hmerge j), assignAliasData_lookup.
      by destruct (baseData !! j) as [[?|]|].
    + by apply (IH _ _ _ _ _ Hmerge).
Qed.

(** The merge leaves alone every field that is not the alias of a round
    that takes part. *)
Lemma merge_results_frame this fkValues a fetched :
  forall i resultMetadata resultData baseData out,
    merge_results this fkValues i fetched resultMetadata resultData baseData
    = Resolved out ->
    (forall k, k < length fetched ->
               alias_selected this (i + k) = true ->
               default "undefined" (_joinAlias this !! (i + k)) <> a) ->
    forall j, row_prop a <$> out !! j = row_prop a <$> baseData !! j.
Proof.
  induction fetched as [|r rest IH]; intros i rm rd baseData out Hmerge Hother j;
    simpl in Hmerge.
  - by simplify_eq.
  - assert (Hrest : forall k, k < length rest ->
                              alias_selected this (S i + k) = true ->
                              default "undefined" (_joinAlias this !! (S i + k)) <> a).
    { intros k Hk. rewrite Nat.add_succ_comm. apply Hother. simpl. lia. }
    destruct (alias_selected this i) eqn:Hsel.
    + destruct (_fetchByKeyResultsToArray _ _ _ _ _) as [arrays|e]; [|done].
      simpl in Hmerge. rewrite (IH _ _ _ _ _ Hmerge Hrest j), assignAliasData_lookup.
      specialize (Hother 0 ltac:(simpl; lia)). rewrite Nat.add_0_r in Hother.
      specialize (Hother Hsel).
      destruct (baseData !! j) as [[row|]|]; simpl; [|done..].
      unfold row_prop. simpl.
      by rewrite get_set_field, has_set_field, (eqb_false_ne _ _ Hother).
    + by apply (IH _ _ _ _ _ Hmerge Hrest).
Qed.

(** What a completed join step leaves as it was. *)
Lemma joiningData_frame this sch rows opts log out :
  _joiningData this sch (Some rows) opts = (log, Resolved out) ->
  exists rows',
    out = Some rows'
    /\ length rows' = length rows
    /\ (forall j, is_null_row <$> rows' !! j = is_null_row <$> rows !! j)
    /\ forall a, (a ∉ _joinAlias this) ->
         forall j, row_prop a <$> rows' !! j = row_prop a <$> rows !! j.
Proof.
  intros Hjoin.
  destruct (joiningData_inv _ _ _ _ _ _ Hjoin)
    as [(-> & _ & _) | (_ & _ & ps & fetched & joined & Hissue & Hall & Hmerge & ->)].
  - by exists rows.
  - exists joined.
    pose proof (merge_results_shape _ _ _ _ _ _ _ _ Hmerge) as Hshape.
    split; [done|]. split; [by apply (lookup_fmap_length is_null_row)|].
    split; [done|]. intros a Ha.
    apply (merge_results_frame _ _ a _ _ _ _ _ _ Hmerge).
    intros k Hk _. simpl. rewrite joinAlias_seen_later.
    destruct (issue_fetches_resolved this
                (_getFKValues rows (_fks this) (_transform this))
                (_joinAlias this) 0 ps) as [Hlen _].
    { by rewrite Hissue. }
    rewrite (promise_all_length _ _ _ Hall), Hlen in Hk.
    destruct (lookup_lt_is_Some_2 _ _ Hk) as [alias Halias].
    rewrite Halias. simpl. intros ->.
    by apply Ha, (list_elem_of_lookup_2 _ k).
Qed.

(** X5: a completed join step returns as many rows as it was given, null
    rows stay null, and in every other row each field that is not a join
    alias is as it was: still there or still absent, with the same value;
    whatever the order in which the fetches settle and whatever other fetch
    is started in the meantime. *)
Theorem joiningData_keeps_base_fields this sch rows opts log out :
  _joiningData this sch (Some rows) opts = (log, Resolved out) ->
  exists rows',
    out = Some rows'
    /\ length rows' = length rows
    /\ (forall j, is_null_row <$> rows' !! j = is_null_row <$> rows !! j)
    /\ forall a, (a ∉ _joinAlias this) ->
         forall j, row_prop a <$> rows' !! j = row_prop a <$> rows !! j.
Proof. exact (joiningData_frame this sch rows opts log out). Qed.

Lemma elem_of_fetched_aliases a log :
  a ∈ fetched_aliases log <-> exists p, JoinedFetchByKeys a p ∈ log.
Proof.
  unfold fetched_aliases. rewrite list_elem_of_omap. split.
  - intros (e & He & Hf). destruct e; simplify_eq. by eexists.
  - intros (p & Hp). by exists (JoinedFetchByKeys a p).
Qed.

Lemma joiningData_log this sch rows opts :
  (_joiningData this sch (Some rows) opts).1 = []
  \/ (_joiningData this sch (Some rows) opts).1
     = (issue_fetches this (_getFKValues rows (_fks this) (_transform this)) 0
                      (_joinAlias this)).1.
Proof.
  unfold _joiningData. destruct rows as [|r rows]; [by left|].
  destruct (joins opts); [|by left].
  destruct (issue_fetches _ _ _ _) as [log ps]. by right.
Qed.

Lemma alias_selected_requested this i alias :
  _joinAlias this !! i = Some alias ->
  alias_selected this i = alias_requested this alias.
Proof.
  intros Halias. unfold alias_selected, alias_requested. by rewrite Halias.
Qed.

(** X6: under attribute filtering, an alias that the request did not name
    is not fetched; and if the alias is still not selected when the fetches
    have settled (no fetch started in the meantime has named it or dropped
    the filter) and the join step completes, the field of that alias is on
    every row as it was before. *)
Theorem joiningData_skips_unrequested_alias this sch rows opts m a :
  _mapJoinAttributes this = Some m ->
  m !! a = None ->
  alias_requested (seen_later this (written sch)) a = false ->
  (a ∉ fetched_aliases (_joiningData this sch (Some rows) opts).1)
  /\ forall out,
      (_joiningData this sch (Some rows) opts).2 = Resolved out ->
      exists rows',
        out = Some rows'
        /\ forall j, row_prop a <$> rows' !! j = row_prop a <$> rows !! j.
Proof.
  intros Hmap Hnone Hlater. split.
  - rewrite elem_of_fetched_aliases. intros [p Hp].
    destruct (joiningData_log this sch rows opts) as [Hlog|Hlog]; rewrite Hlog in Hp.
    + by apply elem_of_nil in Hp.
    + apply issue_fetches_event in Hp as (k & _ & Hreq).
      unfold join_request in Hreq. by rewrite Hmap, Hnone in Hreq.
  - intros out Hout.
    destruct (_joiningData this sch (Some rows) opts) as [log o] eqn:Hjoin.
    simpl in Hout. subst o.
    destruct (joiningData_inv _ _ _ _ _ _ Hjoin)
      as [(-> & _ & _) | (_ & _ & ps & fetched & joined & Hissue & Hall & Hmerge & ->)].
    + by exists rows.
    + exists joined. split; [done|].
      apply (merge_results_frame _ _ a _ _ _ _ _ _ Hmerge).
      intros k _. simpl.
      destruct (_joinAlias (seen_later this (written sch)) !! k) as [alias|] eqn:Hk.
      * rewrite (alias_selected_requested _ k alias Hk). simpl.
        intros Hsel ->. congruence.
      * unfold alias_selected. rewrite Hk. simpl.
        unfold alias_requested in Hlater.
        destruct (_mapJoinAttributes (seen_later this (written sch))); done.
Qed.

Lemma merge_results_none_selected this fkValues fetched :
  forall i resultMetadata resultData baseData,
    (forall k, k < length fetched -> alias_selected this (i + k) = false) ->
    merge_results this fkValues i fetched resultMetadata resultData baseData
    = Resolved baseData.
Proof.
  induction fetched as [|r rest IH]; intros i rm rd baseData Hnone; simpl; [done|].
  pose proof (Hnone 0 ltac:(simpl; lia)) as H0. rewrite Nat.add_0_r in H0.
  rewrite H0. apply IH. intros k Hk. rewrite Nat.add_succ_comm.
  apply Hnone. simpl. lia.
Qed.

Lemma promise_all_nulls {R : Type} settle (ps : list (option (outcome R))) :
  (forall k, k < length ps -> ps !! k = Some None) ->
  exists fetched, promise_all settle ps = Resolved fetched.
Proof.
  intros Hnull. unfold promise_all.
  destruct (first_rejection settle 0 ps) as [[t e]|] eqn:Hrej; [|by eexists].
  destruct (first_rejection_some settle ps 0 t e Hrej) as (k & Hk & _).
  rewrite (Hnull k) in Hk; [done|]. by apply lookup_lt_Some in Hk.
Qed.

Lemma filter_none {A : Type} (f : A -> bool) (l : list A) :
  (forall a, a ∈ l -> f a = false) -> List.filter f l = [].
Proof.
  induction l as [|x l IH]; intros Hnone; simpl; [done|].
  rewrite (Hnone x), IH; [done | | set_solver]. intros a Ha. apply Hnone. set_solver.
Qed.

(** A join step in which no alias takes part, neither when the fetches
    are issued nor when they have settled. *)
Lemma joiningData_none_requested this sch rows opts m :
  _mapJoinAttributes this = Some m ->
  (forall a, a ∈ _joinAlias this -> m !! a = None) ->
  (forall a, a ∈ _joinAlias this ->
             alias_requested (seen_later this (written sch)) a = false) ->
  (forall i, i < length (_joinAlias this) -> is_Some (mjoin (_joinDPs this !! i))) ->
  fetched_aliases (_joiningData this sch (Some rows) opts).1 = []
  /\ (_joiningData this sch (Some rows) opts).2 = Resolved (Some rows).
Proof.
  intros Hmap Hnone Hlater Hpresent.
  assert (Hreq : forall a, a ∈ _joinAlias this -> alias_requested this a = false).
  { intros a Ha. unfold alias_requested. rewrite Hmap, (Hnone a Ha).
    apply bool_decide_eq_false. by intros [? ?]. }
  unfold _joiningData. destruct rows as [|r rows]; [done|].
  destruct (joins opts) as [js|]; [|done].
  set (fkValues := _getFKValues (r :: rows) (_fks this) (_transform this)).
  destruct (issue_fetches_present this fkValues (_joinAlias this) 0 Hpresent)
    as [ps Hps].
  pose proof (issue_fetches_log this fkValues (_joinAlias this) 0 ps Hps) as Hlog.
  destruct (issue_fetches_resolved this fkValues (_joinAlias this) 0 ps Hps)
    as [Hlen Hlook].
  destruct (issue_fetches this fkValues 0 (_joinAlias this)) as [log o].
  simpl in Hps, Hlog. subst o. simpl. split.
  - rewrite Hlog. by apply filter_none.
  - destruct (promise_all_nulls (settles sch) ps) as [fetched Hfetched].
    { intros k Hk. rewrite Hlen in Hk.
      destruct (lookup_lt_is_Some_2 _ _ Hk) as [alias Halias].
      destruct (Hlook k alias Halias) as (dp & _ & ->). f_equal.
      pose proof (join_request_requested this fkValues (0 + k) alias) as Hjr.
      rewrite (Hreq alias) in Hjr; [|by apply (list_elem_of_lookup_2 _ k)].
      destruct (join_request this fkValues (0 + k) alias); [|done].
      destruct Hjr as [Hjr _]. by specialize (Hjr ltac:(eauto)). }
    rewrite Hfetched. simpl.
    rewrite merge_results_none_selected; [done|].
    intros k Hk. rewrite (promise_all_length _ _ _ Hfetched), Hlen in Hk.
    destruct (lookup_lt_is_Some_2 _ _ Hk) as [alias Halias]. simpl.
    rewrite (alias_selected_requested _ k alias);
      [|by rewrite joinAlias_seen_later].
    by apply Hlater, (list_elem_of_lookup_2 _ k).
Qed.

(** X7: when the request named none of the aliases (an empty attribute
    list, for one), none is selected either when the fetches have settled
    (no fetch started in the meantime has named one or dropped the filter),
    and every joined provider is there, the join step fetches nothing and
    returns the page as it is. *)
Theorem joiningData_nothing_requested this sch rows opts m :
  _mapJoinAttributes this = Some m ->
  (forall a, a ∈ _joinAlias this -> m !! a = None) ->
  (forall a, a ∈ _joinAlias this ->
             alias_requested (seen_later this (written sch)) a = false) ->
  (forall i, i < length (_joinAlias this) -> is_Some (mjoin (_joinDPs this !! i))) ->
  fetched_aliases (_joiningData this sch (Some rows) opts).1 = []
  /\ (_joiningData this sch (Some rows) opts).2 = Resolved (Some rows).
Proof. exact (joiningData_none_requested this sch rows opts m). Qed.

(** X8: on a non-empty page with joins configured and every joined
    provider there, the join step issues exactly one [fetchByKeys] for each
    requested alias, in declaration order, whatever the capability of the
    provider; and each of these fetches carries one key per row of the
    page. *)
Theorem joiningData_one_fetch_per_alias this sch rows opts :
  rows <> [] ->
  joins opts <> None ->
  (forall i, i < length (_joinAlias this) -> is_Some (mjoin (_joinDPs this !! i))) ->
  length (_joinAlias this) <= length (_fks this) ->
  fetched_aliases (_joiningData this sch (Some rows) opts).1
  = List.filter (alias_requested this) (_joinAlias this)
  /\ forall a p,
      JoinedFetchByKeys a p ∈ (_joiningData this sch (Some rows) opts).1 ->
      exists ks, jf_keys p = Some ks /\ length ks = length rows.
Proof.
  intros Hrows Hjoins Hpresent Hfks.
  set (fkValues := _getFKValues rows (_fks this) (_transform this)).
  assert (Hlog : (_joiningData this sch (Some rows) opts).1
                 = (issue_fetches this fkValues 0 (_joinAlias this)).1).
  { unfold _joiningData. destruct rows as [|r rows]; [done|].
    destruct (joins opts); [|done]. fold fkValues.
    by destruct (issue_fetches this fkValues 0 (_joinAlias this)). }
  rewrite Hlog.
  destruct (issue_fetches_present this fkValues (_joinAlias this) 0 Hpresent)
    as [ps Hps].
  split; [by apply (issue_fetches_log _ _ _ _ ps)|].
  intros a p Hin. apply issue_fetches_event in Hin as (k & Hk & Hreq).
  assert (Hlt : k < length (_fks this)).
  { apply lookup_lt_Some in Hk. lia. }
  destruct (lookup_lt_is_Some_2 fkValues k) as [ks Hks].
  { unfold fkValues. by rewrite (proj1 (getFKValues_lengths _ _ _)). }
  exists ks. split.
  - unfold join_request in Hreq. simpl in Hreq. rewrite Hks in Hreq.
    destruct (_mapJoinAttributes this) as [m|]; simplify_eq; [|done].
    destruct (m !! a); simpl in Hreq; by simplify_eq.
  - by apply (proj2 (getFKValues_lengths rows (_fks this) (_transform this)) k).
Qed.



(** X10: when every joined provider is there and the fetch of an alias is
    rejected before any other rejected fetch of the step settles, the join
    step is rejected with that same error; no row is returned.  Fetches that
    are rejected later, whether declared before or after the alias, do not
    matter. *)
Theorem joiningData_propagates_rejection this sch rows opts i a dp req e :
  rows <> [] ->
  joins opts <> None ->
  (forall k, k < length (_joinAlias this) -> is_Some (mjoin (_joinDPs this !! k))) ->
  _joinAlias this !! i = Some a ->
  mjoin (_joinDPs this !! i) = Some dp ->
  join_request this (_getFKValues rows (_fks this) (_transform this)) i a = Some req ->
  dp_fetchByKeys dp req = Rejected e ->
  (forall k a' dp' req' e',
      k <> i ->
      _joinAlias this !! k = Some a' ->
      mjoin (_joinDPs this !! k) = Some dp' ->
      join_request this (_getFKValues rows (_fks this) (_transform this)) k a'
      = Some req' ->
      dp_fetchByKeys dp' req' = Rejected e' ->
      settles_before (settles sch) i k) ->
  (_joiningData this sch (Some rows) opts).2 = Rejected e.
Proof.
  intros Hrows Hjoins Hpresent Ha Hdp Hreq Hrej Hfirst.
  set (fkValues := _getFKValues rows (_fks this) (_transform this)) in *.
  unfold _joiningData. destruct rows as [|r rows]; [done|].
  destruct (joins opts) as [js|]; [|done]. fold fkValues.
  destruct (issue_fetches_present this fkValues (_joinAlias this) 0 Hpresent)
    as [ps Hps].
  destruct (issue_fetches_resolved this fkValues (_joinAlias this) 0 ps Hps)
    as [Hlen Hlook].
  destruct (issue_fetches this fkValues 0 (_joinAlias this)) as [log o].
  simpl in Hps. subst o. simpl.
  rewrite (promise_all_first_rejected (settles sch) ps i e); [done| |].
  - destruct (Hlook i a Ha) as (dp' & Hdp' & ->). simpl in Hdp'.
    rewrite Hdp in Hdp'. simplify_eq. simpl. rewrite Hreq. simpl. by rewrite Hrej.
  - intros k e' Hpk Hne.
    assert (Hklt : k < length (_joinAlias this)).
    { apply lookup_lt_Some in Hpk. lia. }
    destruct (lookup_lt_is_Some_2 _ _ Hklt) as [a' Ha'].
    destruct (Hlook k a' Ha') as (dp' & Hdp' & Hpk'). simpl in Hdp', Hpk'.
    rewrite Hpk' in Hpk.
    destruct (join_request this fkValues k a') as [req'|] eqn:Hreq';
      simpl in Hpk; [|done].
    simplify_eq.
    by eapply (Hfirst k a' dp' req' e').
Qed.

(** ** The join step: the values joined from a result set that is not empty *)

Lemma fetchByKeyResultsToArray_found m ks resultMetadata resultData :
  m <> [] ->
  exists resultMetadata' resultData',
    _fetchByKeyResultsToArray VNull (Some (mkFetchByKeysResults (Some m))) (Some ks)
                              resultMetadata resultData
    = Resolved (resultMetadata', resultData')
    /\ forall j key, ks !! j = Some key -> resultData' !! j = Some (joined_value m key).
Proof.
  intros Hm. unfold _fetchByKeyResultsToArray. cbn [results].
  destruct m as [|e m]; [done|].
  eexists _, _. split; [reflexivity|].
  intros j key Hj. unfold overwrite_prefix, joined_value.
  rewrite lookup_app_l.
  - rewrite lookup_map, Hj. cbn [fmap option_fmap option_map].
    by destruct (keymap_get (e :: m) key) as [[? ?]|].
  - rewrite length_map. by apply lookup_lt_Some in Hj.
Qed.

Lemma merge_results_joined this fkValues a m ks fetched :
  m <> [] ->
  forall i resultMetadata resultData baseData out k,
    merge_results this fkValues i fetched resultMetadata resultData baseData
    = Resolved out ->
    fetched !! k = Some (Some (Some (mkFetchByKeysResults (Some m)))) ->
    alias_selected this (i + k) = true ->
    _joinAlias this !! (i + k) = Some a ->
    fkValues !! (i + k) = Some ks ->
    (forall k', k < k' -> k' < length fetched ->
                alias_selected this (i + k') = true ->
                default "undefined" (_joinAlias this !! (i + k')) <> a) ->
    forall j r key,
      baseData !! j = Some (Some r) ->
      ks !! j = Some key ->
      exists r',
        out !! j = Some (Some r')
        /\ has_field r' a = true
        /\ get_field r' a = joined_value m key.
Proof.
  intros Hm. induction fetched as [|r0 rest IH];
    intros i rm rd baseData out k Hmerge Hk Hsel Ha Hks Hlater j r key Hj Hkey.
  - by rewrite lookup_nil in Hk.
  - simpl in Hmerge. destruct k as [|k].
    + rewrite Nat.add_0_r in Hsel, Ha, Hks. simpl in Hk. simplify_eq.
      rewrite Hsel, Hks in Hmerge. cbn [mjoin option_join] in Hmerge.
      destruct (fetchByKeyResultsToArray_found m ks rm rd Hm)
        as (rm' & rd' & Harrays & Hdata).
      rewrite Harrays in Hmerge. simpl in Hmerge.
      pose proof (merge_results_frame this fkValues a rest _ _ _ _ _ Hmerge) as Hframe.
      specialize (Hframe ltac:(intros k' Hk' Hsel'; rewrite Nat.add_succ_comm;
                               apply Hlater; [lia | simpl; lia | by rewrite <- Nat.add_succ_comm])).
      specialize (Hframe j). rewrite assignAliasData_lookup, Hj, Ha in Hframe.
      simpl in Hframe. unfold row_prop in Hframe. simpl in Hframe.
      rewrite get_set_field, has_set_field, String.eqb_refl in Hframe.
      unfold array_get in Hframe. rewrite (Hdata j key Hkey) in Hframe.
      simpl in Hframe.
      destruct (out !! j) as [[r'|]|]; simpl in Hframe; simplify_eq.
      by exists r'.
    + simpl in Hk.
      assert (Hlater' : forall k', k < k' -> k' < length rest ->
                                   alias_selected this (S i + k') = true ->
                                   default "undefined" (_joinAlias this !! (S i + k')) <> a).
      { intros k' Hk' Hlen. rewrite Nat.add_succ_comm.
        apply Hlater; [lia | simpl; lia]. }
      rewrite <- Nat.add_succ_comm in Hsel, Ha, Hks.
      destruct (alias_selected this i).
      * destruct (_fetchByKeyResultsToArray _ _ _ _ _) as [arrays|e]; [|done].
        simpl in Hmerge.
        eapply (IH _ _ _ _ _ k Hmerge Hk Hsel Ha Hks Hlater' j); [|exact Hkey].
        by rewrite assignAliasData_lookup, Hj.
      * by eapply (IH _ _ _ _ _ k Hmerge Hk Hsel Ha Hks Hlater' j).
Qed.

(** X11: when the join step completes, the result set fetched for a
    requested alias is not empty, and the alias is still selected when the
    fetches have settled (no fetch started in the meantime has left it out),
    every non-null row has the alias field, and it holds the data of the item
    found for the row's key, or [null] when the result set has no item for
    that key. *)
Theorem joiningData_joined_values this sch rows opts log rows' i a dp req m :
  NoDup (_joinAlias this) ->
  rows <> [] ->
  joins opts <> None ->
  _joiningData this sch (Some rows) opts = (log, Resolved (Some rows')) ->
  _joinAlias this !! i = Some a ->
  mjoin (_joinDPs this !! i) = Some dp ->
  join_request this (_getFKValues rows (_fks this) (_transform this)) i a = Some req ->
  dp_fetchByKeys dp req = Resolved (Some (mkFetchByKeysResults (Some m))) ->
  m <> [] ->
  alias_requested (seen_later this (written sch)) a = true ->
  forall j r key,
    rows !! j = Some (Some r) ->
    _getFKValues rows (_fks this) (_transform this) !! i ≫= (.!! j) = Some key ->
    exists r',
      rows' !! j = Some (Some r')
      /\ has_field r' a = true
      /\ get_field r' a = joined_value m key.
Proof.
  intros Hnodup Hrows Hjoins Hjoin Ha Hdp Hreq Hfetch Hm Hlater j r key Hj Hkey.
  set (fkValues := _getFKValues rows (_fks this) (_transform this)) in *.
  destruct (joiningData_inv _ _ _ _ _ _ Hjoin)
    as [(_ & _ & [?|?]) | (_ & _ & ps & fetched & joined & Hissue & Hall & Hmerge & Hout)];
    [done..|].
  simplify_eq. fold fkValues in Hissue, Hmerge.
  destruct (issue_fetches_resolved this fkValues (_joinAlias this) 0 ps) as [Hlen Hlook].
  { by rewrite Hissue. }
  destruct (Hlook i a Ha) as (dp' & Hdp' & Hpi). simpl in Hdp', Hpi.
  rewrite Hdp in Hdp'. simplify_eq. rewrite Hreq in Hpi. simpl in Hpi.
  rewrite Hfetch in Hpi.
  destruct (promise_all_lookup _ ps fetched i Hall) as [Hfi _].
  rewrite Hpi in Hfi. simpl in Hfi.
  destruct (fkValues !! i) as [ks|] eqn:Hks; [|done]. simpl in Hkey.
  assert (Ha' : _joinAlias (seen_later this (written sch)) !! i = Some a).
  { by rewrite joinAlias_seen_later. }
  eapply (merge_results_joined (seen_later this (written sch)) fkValues a m ks fetched
            Hm 0 [] [] rows _ i Hmerge Hfi); [| done | done | | exact Hj | exact Hkey].
  - simpl. by rewrite (alias_selected_requested _ i a Ha').
  - intros k' Hlt Hk' _. simpl. rewrite joinAlias_seen_later.
    rewrite (promise_all_length _ _ _ Hall), Hlen in Hk'.
    destruct (lookup_lt_is_Some_2 _ _ Hk') as [a' Ha''].
    rewrite Ha''. simpl. intros ->.
    pose proof (NoDup_lookup _ _ _ _ Hnodup Ha Ha''). lia.
Qed.

(** ** The join step: a fetch started while the joined fetches are pending *)

(** A round of the merge that takes part gives every non-null row the
    field of its alias, whatever was fetched for it. *)
Lemma merge_results_assigned this fkValues a fetched :
  forall i resultMetadata resultData baseData out k,
    merge_results this fkValues i fetched resultMetadata resultData baseData
    = Resolved out ->
    k < length fetched ->
    alias_selected this (i + k) = true ->
    _joinAlias this !! (i + k) = Some a ->
    (forall k', k < k' -> k' < length fetched ->
                alias_selected this (i + k') = true ->
                default "undefined" (_joinAlias this !! (i + k')) <> a) ->
    forall j r,
      baseData !! j = Some (Some r) ->
      exists r', out !! j = Some (Some r') /\ has_field r' a = true.
Proof.
  induction fetched as [|r0 rest IH];
    intros i rm rd baseData out k Hmerge Hk Hsel Ha Hlater j r Hj.
  - simpl in Hk. lia.
  - simpl in Hmerge. destruct k as [|k].
    + rewrite Nat.add_0_r in Hsel, Ha. rewrite Hsel in Hmerge.
      destruct (_fetchByKeyResultsToArray _ _ _ _ _) as [arrays|e]; [|done].
      simpl in Hmerge.
      pose proof (merge_results_frame this fkValues a rest _ _ _ _ _ Hmerge) as Hframe.
      specialize (Hframe ltac:(intros k' Hk' Hsel'; rewrite Nat.add_succ_comm;
                               apply Hlater; [lia | simpl; lia | by rewrite <- Nat.add_succ_comm])).
      specialize (Hframe j). rewrite assignAliasData_lookup, Hj, Ha in Hframe.
      simpl in Hframe. unfold row_prop in Hframe. simpl in Hframe.
      rewrite has_set_field, String.eqb_refl in Hframe. simpl in Hframe.
      destruct (out !! j) as [[r'|]|]; simpl in Hframe; simplify_eq.
      by exists r'.
    + assert (Hlater' : forall k', k < k' -> k' < length rest ->
                                   alias_selected this (S i + k') = true ->
                                   default "undefined" (_joinAlias this !! (S i + k')) <> a).
      { intros k' Hk' Hlen. rewrite Nat.add_succ_comm.
        apply Hlater; [lia | simpl; lia]. }
      rewrite <- Nat.add_succ_comm in Hsel, Ha. simpl in Hk.
      destruct (alias_selected this i).
      * destruct (_fetchByKeyResultsToArray _ _ _ _ _) as [arrays|e]; [|done].
        simpl in Hmerge.
        eapply (IH _ _ _ _ _ k Hmerge ltac:(lia) Hsel Ha Hlater' j).
        by rewrite assignAliasData_lookup, Hj.
      * by eapply (IH _ _ _ _ _ k Hmerge ltac:(lia) Hsel Ha Hlater' j).
Qed.

(** X25: the callback of [Promise.all] reads the join-attribute map anew.
    When the request did not name an alias, so that the alias is not fetched,
    and a fetch without attributes is started on the provider before the
    joined fetches have settled, a join step that completes has nevertheless
    assigned the alias field on every non-null row. *)
Theorem joiningData_overlapping_fetch_assigns_unfetched_alias
    this sch rows opts m log rows' i a :
  NoDup (_joinAlias this) ->
  rows <> [] ->
  joins opts <> None ->
  _joinAlias this !! i = Some a ->
  _mapJoinAttributes this = Some m ->
  m !! a = None ->
  written sch = Some None ->
  _joiningData this sch (Some rows) opts = (log, Resolved (Some rows')) ->
  (a ∉ fetched_aliases log)
  /\ forall j r,
      rows !! j = Some (Some r) ->
      exists r', rows' !! j = Some (Some r') /\ has_field r' a = true.
Proof.
  intros Hnodup Hrows Hjoins Ha Hmap Hnone Hwritten Hjoin.
  destruct (joiningData_inv _ _ _ _ _ _ Hjoin)
    as [(_ & _ & [?|?]) | (_ & _ & ps & fetched & joined & Hissue & Hall & Hmerge & Hout)];
    [done..|].
  simplify_eq. rewrite Hwritten in Hmerge. simpl in Hmerge.
  destruct (issue_fetches_resolved this
              (_getFKValues rows (_fks this) (_transform this))
              (_joinAlias this) 0 ps) as [Hlen _].
  { by rewrite Hissue. }
  split.
  - rewrite elem_of_fetched_aliases. intros [p Hp].
    replace log with
      (issue_fetches this (_getFKValues rows (_fks this) (_transform this)) 0
                     (_joinAlias this)).1 in Hp by (by rewrite Hissue).
    apply issue_fetches_event in Hp as (k & _ & Hreq).
    unfold join_request in Hreq. by rewrite Hmap, Hnone in Hreq.
  - intros j r Hj.
    eapply (merge_results_assigned (with_map this None) _ a fetched 0 [] [] rows _ i
              Hmerge); [| done | exact Ha | | exact Hj].
    + rewrite (promise_all_length _ _ _ Hall), Hlen. by apply lookup_lt_Some in Ha.
    + intros k' Hlt Hk' _. simpl.
      rewrite (promise_all_length _ _ _ Hall), Hlen in Hk'.
      destruct (lookup_lt_is_Some_2 _ _ Hk') as [a' Ha'].
      rewrite Ha'. simpl. intros ->.
      pose proof (NoDup_lookup _ _ _ _ Hnodup Ha Ha'). lia.
Qed.

(** ** The attribute partitioner: what goes where *)

Lemma array_set_end arr x : array_set arr (length arr) x = arr ++ [x].
Proof.
  unfold array_set. rewrite decide_False; [|lia]. by rewrite Nat.sub_diag.
Qed.

(** The first loop appends to the base attributes, in request order, what
    the attributes that name no join alias carry. *)
Lemma classify_loop_base joinAlias l :
  forall p p',
    classify_loop joinAlias p l = (p', None) ->
    pt_iBase p = length (pt_base p) ->
    pt_base p' = pt_base p ++ map carried (List.filter (to_base joinAlias) l)
    /\ pt_iBase p' = length (pt_base p').
Proof.
  induction l as [|a l IH]; intros p p' Hloop Hi; simpl in Hloop.
  - simplify_eq. by rewrite app_nil_r.
  - destruct (classify_step joinAlias p a) as [p1|e] eqn:Hstep; [|done].
    unfold classify_step in Hstep.
    destruct (classify a) as [[o v]|e] eqn:Hclass; [|done]. simpl in Hstep.
    assert (Hcarried : carried a = v) by (unfold carried; by rewrite Hclass).
    assert (Hto : to_base joinAlias a
                  = match o with
                    | Some alias => negb (bJoinAlias alias joinAlias)
                    | None => true
                    end).
    { unfold to_base. by rewrite Hclass. }
    cbn [List.filter]. rewrite Hto.
    assert (Hbase : forall q,
               q = mkPartition (pt_map p) (array_set (pt_base p) (pt_iBase p) v)
                               (S (pt_iBase p)) ->
               pt_base q = pt_base p ++ [v] /\ pt_iBase q = length (pt_base q)).
    { intros q ->. simpl. rewrite Hi, array_set_end, length_app. simpl.
      split; [done | lia]. }
    destruct o as [alias|].
    + destruct (bJoinAlias alias joinAlias); cbn [negb].
      * assert (pt_base p1 = pt_base p /\ pt_iBase p1 = pt_iBase p) as [Hb Hn].
        { clear Hbase IH.
          destruct (pt_map p !! alias);
            [destruct (attr_defined v); [destruct (has_concat _)|]|];
            simplify_eq; done. }
        destruct (IH p1 p' Hloop) as [-> ->]; [congruence|]. by rewrite Hb.
      * destruct (Hbase p1) as [Hb Hn]; [by simplify_eq|].
        destruct (IH p1 p' Hloop Hn) as [-> ->].
        cbn [map]. by rewrite Hb, Hcarried, <- app_assoc.
    + destruct (Hbase p1) as [Hb Hn]; [by simplify_eq|].
      destruct (IH p1 p' Hloop Hn) as [-> ->].
      cbn [map]. by rewrite Hb, Hcarried, <- app_assoc.
Qed.

(** The second loop never writes below the index the first loop reached. *)
Lemma fk_step_prefix n p fk :
  n <= pt_iBase p ->
  pt_iBase p <= length (pt_base p) ->
  take n (pt_base (fk_step p fk)) = take n (pt_base p)
  /\ n <= pt_iBase (fk_step p fk)
  /\ pt_iBase (fk_step p fk) <= length (pt_base (fk_step p fk)).
Proof.
  intros Hn Hi. unfold fk_step.
  destruct (includes (pt_base p) (fk_attr fk)); [done|].
  assert (Hset : forall x,
             take n (array_set (pt_base p) (pt_iBase p) x) = take n (pt_base p)
             /\ n <= S (pt_iBase p)
             /\ S (pt_iBase p) <= length (array_set (pt_base p) (pt_iBase p) x)).
  { intros x. unfold array_set. case_decide.
    - rewrite take_insert_ge, length_insert; [|done]. split; [done | lia].
    - rewrite take_app_le, !length_app, length_replicate; [|lia]. simpl.
      split; [done | lia]. }
  destruct fk as [[f|fs]|]; simpl; [apply Hset| |apply Hset].
  rewrite take_app_le, length_app; [|lia]. split; [done | lia].
Qed.

Lemma fk_loop_prefix n fks :
  forall p,
    n <= pt_iBase p ->
    pt_iBase p <= length (pt_base p) ->
    take n (pt_base (fk_loop p fks)) = take n (pt_base p)
    /\ n <= length (pt_base (fk_loop p fks)).
Proof.
  unfold fk_loop. induction fks as [|fk fks IH]; intros p Hn Hi; simpl.
  - split; [done | lia].
  - destruct (fk_step_prefix n p fk Hn Hi) as (Htake & Hn' & Hi').
    destruct (IH (fk_step p fk) Hn' Hi') as [-> Hlen]. done.
Qed.

(** X12: when the partition completes, the base attribute list starts with
    what the requested attributes that name no join alias carry, in request
    order; the foreign keys come after them and overwrite none of them. *)
Theorem seperateBaseJoinAttributes_base_prefix this origAttr this' baseAttributes :
  _seperateBaseJoinAttributes this origAttr = (this', Resolved baseAttributes) ->
  map carried (List.filter (to_base (_joinAlias this)) origAttr)
    `prefix_of` baseAttributes.
Proof.
  unfold _seperateBaseJoinAttributes.
  destruct (classify_loop (_joinAlias this) (mkPartition ∅ [] 0) origAttr)
    as [p [e|]] eqn:Hloop; [done|].
  intros [= <- <-].
  destruct (classify_loop_base _ _ _ _ Hloop eq_refl) as [Hbase Hi]. simpl in Hbase.
  destruct (fk_loop_prefix (length (pt_base p)) (_fks this) p) as [Htake Hlen];
    [lia..|].
  rewrite <- Hbase. exists (drop (length (pt_base p)) (pt_base (fk_loop p (_fks this)))).
  rewrite <- (take_ge (pt_base p) (length (pt_base p))) at 1; [|done].
  by rewrite <- Htake, take_drop.
Qed.

Lemma seperateBaseJoinAttributes_base_prefix_witness :
  map carried (List.filter (to_base (_joinAlias joining_dept))
                 [AName "id"; AName "dept"; AName "name"])
    `prefix_of` [AName "id"; AName "name"; AName "deptId"].
Proof.
  apply (seperateBaseJoinAttributes_base_prefix joining_dept
           [AName "id"; AName "dept"; AName "name"]
           (_seperateBaseJoinAttributes joining_dept
              [AName "id"; AName "dept"; AName "name"]).1
           [AName "id"; AName "name"; AName "deptId"]).
  reflexivity.
Defined.

Lemma includes_AName l f : includes l (AName f) = true <-> AName f ∈ l.
Proof.
  unfold includes. rewrite existsb_exists. split.
  - intros (b & Hb%list_elem_of_In & Heq).
    destruct b; simpl in Heq; try done.
    apply String.eqb_eq in Heq. by subst.
  - intros Hin. exists (AName f). split; [by apply list_elem_of_In|].
    simpl. apply String.eqb_refl.
Qed.

(** With single-field foreign keys only and the write index at the end of
    the array, the second loop appends each foreign key that the array does
    not hold yet. *)
Lemma fk_loop_single_fields fks :
  Forall (fun fk => single_field fk = true) fks ->
  forall p,
    pt_iBase p = length (pt_base p) ->
    (forall f, Some (FKField f) ∈ fks -> AName f ∈ pt_base (fk_loop p fks))
    /\ (forall x, x ∈ pt_base p -> x ∈ pt_base (fk_loop p fks))
    /\ (NoDup (pt_base p) -> NoDup (pt_base (fk_loop p fks)))
    /\ (forall x, x ∈ pt_base (fk_loop p fks) ->
                  x ∈ pt_base p \/ exists f, x = AName f /\ Some (FKField f) ∈ fks).
Proof.
  unfold fk_loop. induction 1 as [|fk fks Hfk _ IH]; intros p Hi; simpl.
  - repeat split; try done. intros f Hf. by apply elem_of_nil in Hf. by left.
  - destruct fk as [[f|fs]|]; try done.
    assert (Hstep : exists q,
               fk_step p (Some (FKField f)) = q
               /\ pt_iBase q = length (pt_base q)
               /\ AName f ∈ pt_base q
               /\ (forall x, x ∈ pt_base p -> x ∈ pt_base q)
               /\ (NoDup (pt_base p) -> NoDup (pt_base q))
               /\ (forall x, x ∈ pt_base q -> x ∈ pt_base p \/ x = AName f)).
    { eexists. split; [reflexivity|]. unfold fk_step. simpl.
      destruct (includes (pt_base p) (AName f)) eqn:Hinc.
      - apply includes_AName in Hinc. repeat split; try done. by left.
      - simpl. rewrite Hi, array_set_end, length_app. simpl.
        split; [lia|]. split; [set_solver|]. split; [set_solver|]. split.
        + intros Hnd. apply NoDup_app. split; [done|]. split; [|apply NoDup_singleton].
          intros x Hx ->%list_elem_of_singleton.
          apply includes_AName in Hx. congruence.
        + intros x [?|?%list_elem_of_singleton]%elem_of_app; eauto. }
    destruct Hstep as (q & -> & Hq & Hf & Hkeep & Hnd & Hfrom).
    destruct (IH q Hq) as (IH1 & IH2 & IH3 & IH4). repeat split.
    + intros g [Hg|Hg]%elem_of_cons; [simplify_eq; by apply IH2 | by apply IH1].
    + intros x Hx. by apply IH2, Hkeep.
    + intros Hp. by apply IH3, Hnd.
    + intros x Hx. destruct (IH4 x Hx) as [Hx'|(g & -> & Hg)].
      * destruct (Hfrom x Hx') as [?| ->]; [by left|].
        right. exists f. split; [done|]. by left.
      * right. exists g. split; [done|]. by right.
Qed.

(** X13: when every declared foreign key is a single field and the
    partition completes, the base attribute list holds every declared
    foreign-key field; what follows the requested base attributes are
    declared foreign-key fields only, and none is appended that the list
    already holds: a list without repetition stays without repetition. *)
Theorem seperateBaseJoinAttributes_single_field_keys this origAttr this' baseAttributes :
  Forall (fun fk => single_field fk = true) (_fks this) ->
  _seperateBaseJoinAttributes this origAttr = (this', Resolved baseAttributes) ->
  (forall f, Some (FKField f) ∈ _fks this -> AName f ∈ baseAttributes)
  /\ (forall x, x ∈ baseAttributes ->
                x ∈ map carried (List.filter (to_base (_joinAlias this)) origAttr)
                \/ exists f, x = AName f /\ Some (FKField f) ∈ _fks this)
  /\ (NoDup (map carried (List.filter (to_base (_joinAlias this)) origAttr)) ->
      NoDup baseAttributes).
Proof.
  intros Hsingle. unfold _seperateBaseJoinAttributes.
  destruct (classify_loop (_joinAlias this) (mkPartition ∅ [] 0) origAttr)
    as [p [e|]] eqn:Hloop; [done|].
  intros [= <- <-].
  destruct (classify_loop_base _ _ _ _ Hloop eq_refl) as [Hbase Hi]. simpl in Hbase.
  destruct (fk_loop_single_fields (_fks this) Hsingle p Hi) as (H1 & _ & H3 & H4).
  rewrite <- Hbase. done.
Qed.

Lemma seperateBaseJoinAttributes_single_field_keys_witness :
  (forall f, Some (FKField f) ∈ _fks joining_dept_mgr ->
             AName f ∈ [AName "id"; AName "mgrId"; AName "deptId"])
  /\ (forall x, x ∈ [AName "id"; AName "mgrId"; AName "deptId"] ->
                x ∈ map carried (List.filter (to_base (_joinAlias joining_dept_mgr))
                                   [AName "id"; AName "mgrId"; AName "dept"])
                \/ exists f, x = AName f /\ Some (FKField f) ∈ _fks joining_dept_mgr)
  /\ (NoDup (map carried (List.filter (to_base (_joinAlias joining_dept_mgr))
                            [AName "id"; AName "mgrId"; AName "dept"])) ->
      NoDup [AName "id"; AName "mgrId"; AName "deptId"]).
Proof.
  apply (seperateBaseJoinAttributes_single_field_keys joining_dept_mgr
           [AName "id"; AName "mgrId"; AName "dept"]
           (_seperateBaseJoinAttributes joining_dept_mgr
              [AName "id"; AName "mgrId"; AName "dept"]).1
           [AName "id"; AName "mgrId"; AName "deptId"]).
  - repeat constructor.
  - reflexivity.
Defined.

Lemma classify_step_dom joinAlias alias p p' a :
  classify_step joinAlias p a = Resolved p' ->
  is_Some (pt_map p' !! alias)
  <-> is_Some (pt_map p !! alias)
      \/ (names alias a = true /\ bJoinAlias alias joinAlias = true).
Proof.
  intros Hstep. destruct (names alias a) eqn:Hname.
  - unfold names in Hname.
    destruct (classify a) as [[[s|] v]|e] eqn:Hclass; try done.
    apply String.eqb_eq in Hname. subst s.
    destruct (bJoinAlias alias joinAlias) eqn:Hjoin.
    + rewrite (classify_step_same _ _ _ _ _ _ Hstep Hclass Hjoin).
      split; [intros _; by right | intros _; by eexists].
    + unfold classify_step in Hstep. rewrite Hclass in Hstep. simpl in Hstep.
      rewrite Hjoin in Hstep. simplify_eq. simpl. split; [by left|].
      by intros [?|[_ ?]].
  - rewrite (classify_step_other _ _ _ _ _ Hstep Hname).
    split; [by left|]. by intros [?|[? _]].
Qed.

Lemma classify_loop_dom joinAlias alias l :
  forall p p',
    classify_loop joinAlias p l = (p', None) ->
    is_Some (pt_map p' !! alias)
    <-> is_Some (pt_map p !! alias)
        \/ (bJoinAlias alias joinAlias = true
            /\ exists a, a ∈ l /\ names alias a = true).
Proof.
  induction l as [|a l IH]; intros p p' Hloop; simpl in Hloop.
  - simplify_eq. split; [by left|]. intros [?|[_ (a & Ha & _)]]; [done|].
    by apply elem_of_nil in Ha.
  - destruct (classify_step joinAlias p a) as [p1|e] eqn:Hstep; [|done].
    rewrite (IH p1 p' Hloop), (classify_step_dom _ alias _ _ _ Hstep).
    split.
    + intros [[?|[Hn Hj]]|[Hj (b & Hb & Hn)]]; [by left| |].
      * right. split; [done|]. exists a. split; [by left | done].
      * right. split; [done|]. exists b. split; [by right | done].
    + intros [?|[Hj (b & [->|Hb]%elem_of_cons & Hn)]]; [by left; left| |].
      * left. by right.
      * right. split; [done|]. by exists b.
Qed.

(** The aliases that have an entry in the join-attribute map. *)
Lemma partition_map_domain this origAttr this' baseAttributes :
  _seperateBaseJoinAttributes this origAttr = (this', Resolved baseAttributes) ->
  exists m,
    _mapJoinAttributes this' = Some m
    /\ forall alias,
        is_Some (m !! alias)
        <-> bJoinAlias alias (_joinAlias this) = true
            /\ exists a, a ∈ origAttr /\ names alias a = true.
Proof.
  unfold _seperateBaseJoinAttributes.
  destruct (classify_loop (_joinAlias this) (mkPartition ∅ [] 0) origAttr)
    as [p [e|]] eqn:Hloop; [done|].
  intros [= <- <-]. eexists. split; [reflexivity|].
  intros alias. rewrite fk_loop_map, (classify_loop_dom _ alias _ _ _ Hloop).
  simpl. rewrite lookup_empty. split; [|by right].
  intros [[? ?]|?]; done.
Qed.

(** X14: when the partition completes, the join-attribute map has an entry
    for exactly the declared join aliases that the request names; an alias
    that the request does not name has none. *)
Theorem seperateBaseJoinAttributes_map_domain this origAttr this' baseAttributes :
  _seperateBaseJoinAttributes this origAttr = (this', Resolved baseAttributes) ->
  exists m,
    _mapJoinAttributes this' = Some m
    /\ forall alias,
        is_Some (m !! alias)
        <-> bJoinAlias alias (_joinAlias this) = true
            /\ exists a, a ∈ origAttr /\ names alias a = true.
Proof. exact (partition_map_domain this origAttr this' baseAttributes). Qed.

(** ** The public fetch methods *)

Lemma collect_array_spec n metaData rows :
  forall i,
    collect_array n i metaData (Some rows)
    = Resolved (map (fun k => mkItem (array_get metaData k)
                                     (match rows !! k with
                                      | Some r => row_value r
                                      | None => VUndefined
                                      end)) (seq i n)).
Proof.
  induction n as [|n IH]; intros i; simpl; [done|]. by rewrite IH.
Qed.

Lemma map_seq_lookup {B : Type} (g : nat -> B) (l : list B) :
  (forall k x, l !! k = Some x -> g k = x) ->
  map g (seq 0 (length l)) = l.
Proof.
  intros Hg. apply list_eq. intros j. rewrite lookup_map.
  destruct (decide (j < length l)) as [Hj|Hj].
  - rewrite lookup_seq_lt; [|done]. simpl.
    destruct (lookup_lt_is_Some_2 l j Hj) as [x Hx]. by rewrite Hx, (Hg j x Hx).
  - rewrite lookup_seq_ge, lookup_ge_None_2; [done | lia | lia].
Qed.

(** X15: when the callback of [fetchByOffset] resolves to a result for a
    base result with items, the result carries the caller's parameters and
    the base provider's [done] flag, and it has one item per base item, in
    order, with the metadata of the base item and the row that the join step
    returned at that position. *)
Theorem fetchByOffset_then_items this sch params items done log r :
  fetchByOffset_then this sch params (Some (mkBaseByOffset (Some items) done))
  = (log, Resolved r) ->
  exists out rows',
    r = Some out
    /\ jo_fetchParameters out = params
    /\ jo_done out = done
    /\ (_joiningData this sch (Some (map data items)) (options this)).2
       = Resolved (Some rows')
    /\ length (jo_results out) = length items
    /\ map metadata (jo_results out) = map metadata items
    /\ map data (jo_results out) = map row_value rows'.
Proof.
  unfold fetchByOffset_then.
  destruct (_joiningData this sch (Some (map data items)) (options this))
    as [log' joined] eqn:Hjoin.
  destruct joined as [joinData|e]; [|intros [= ]].
  destruct (joiningData_frame _ _ _ _ _ _ Hjoin)
    as (rows' & -> & Hlen & _).
  cbn [bind]. rewrite collect_array_spec. cbn [bind].
  intros [= <- <-]. eexists _, rows'. repeat (split; [reflexivity|]).
  cbn [jo_results]. rewrite length_map in Hlen.
  split; [by rewrite length_map, length_seq|].
  rewrite !map_map. cbn [metadata data]. split.
  - rewrite <- (length_map metadata items). apply map_seq_lookup.
    intros k x Hx. unfold array_get. by rewrite Hx.
  - rewrite <- Hlen, <- (length_map row_value rows'). apply map_seq_lookup.
    intros k x. rewrite lookup_map. by destruct (rows' !! k); intros [= <-].
Qed.

(** X16: without attributes in the parameters (or without parameters), the
    three fetch methods leave the store as it is, set the join-attribute map
    to [null], and hand the caller's own parameters to the base provider. *)
Theorem fetch_without_attributes base this st params pending sch :
  deref st params ≫= Params.attributes = None ->
  (c_store (fetchFirst base this st params) = st
   /\ c_this (fetchFirst base this st params) = with_map this None
   /\ c_log (fetchFirst base this st params) = [BaseFetchFirst params])
  /\ (c_store (fetchByKeys base this st params pending sch) = st
      /\ c_this (fetchByKeys base this st params pending sch) = with_map this None
      /\ exists log, c_log (fetchByKeys base this st params pending sch)
                     = BaseFetchByKeys params :: log)
  /\ (c_store (fetchByOffset base this st params pending sch) = st
      /\ c_this (fetchByOffset base this st params pending sch) = with_map this None
      /\ exists log, c_log (fetchByOffset base this st params pending sch)
                     = BaseFetchByOffset params :: log).
Proof.
  intros Hnone. split; [|split].
  - unfold fetchFirst. destruct params as [l|]; [|done].
    destruct (deref st (Some l)) as [p|]; [|done]. simpl in Hnone.
    by rewrite Hnone.
  - unfold fetchByKeys, requested_attributes.
    destruct (deref st params) as [p|]; simpl in *; [rewrite Hnone; simpl|].
    + destruct (base_fetchByKeys base (Some p)); [|by eauto].
      destruct (fetchByKeys_then _ _ _ _ _). by eauto.
    + destruct (base_fetchByKeys base None); [|by eauto].
      destruct (fetchByKeys_then _ _ _ _ _). by eauto.
  - unfold fetchByOffset, requested_attributes.
    destruct (deref st params) as [p|]; simpl in *; [rewrite Hnone; simpl|].
    + destruct (base_fetchByOffset base (Some p)); [|by eauto].
      destruct (fetchByOffset_then _ _ _ _). by eauto.
    + destruct (base_fetchByOffset base None); [|by eauto].
      destruct (fetchByOffset_then _ _ _ _). by eauto.
Qed.

(** X17: when the base provider rejects every keyed and every offset fetch
    with an error, [fetchByKeys] and [fetchByOffset], once they have called
    the base provider, are rejected with that error and fetch nothing from
    the joined providers. *)
Theorem fetch_propagates_base_rejection base this st params pending sch e :
  (forall p, base_fetchByKeys base p = Rejected e) ->
  (forall p, base_fetchByOffset base p = Rejected e) ->
  (c_log (fetchByKeys base this st params pending sch) <> [] ->
   c_result (fetchByKeys base this st params pending sch) = Rejected e
   /\ fetched_aliases (c_log (fetchByKeys base this st params pending sch)) = [])
  /\ (c_log (fetchByOffset base this st params pending sch) <> [] ->
      c_result (fetchByOffset base this st params pending sch) = Rejected e
      /\ fetched_aliases (c_log (fetchByOffset base this st params pending sch)) = []).
Proof.
  intros Hkeys Hoffset. split.
  - unfold fetchByKeys.
    destruct (requested_attributes (deref st params)) as [[o origAttr]|].
    + destruct (_seperateBaseJoinAttributes this origAttr) as [this' [b|e']];
        [|done].
      by rewrite Hkeys.
    + by rewrite Hkeys.
  - unfold fetchByOffset.
    destruct (requested_attributes (deref st params)) as [[o origAttr]|].
    + destruct (_seperateBaseJoinAttributes this origAttr) as [this' [b|e']];
        [|done].
      by rewrite Hoffset.
    + by rewrite Hoffset.
Qed.

(** X18: when the base provider's result map is empty, the callback of
    [fetchByKeys] calls no joined provider and returns a mapping with an
    entry for every requested key: an item whose metadata and data are
    [undefined]. *)
Theorem fetchByKeys_then_empty_result this sch params p keyValues :
  Params.keys p = Some keyValues ->
  exists items,
    fetchByKeys_then this sch params (Some p) (Some (mkFetchByKeysResults (Some [])))
    = ([], Resolved (Some (mkJoinedByKeys params items)))
    /\ forall k, k ∈ keyValues ->
         keymap_get items k = Some (mkItem VUndefined VUndefined).
Proof.
  intros Hkeys. unfold fetchByKeys_then.
  cbn [mbind option_bind]. rewrite Hkeys.
  unfold _fetchByKeyResultsToArray. cbn [results].
  change (_joiningData this sch (Some []) (options this)) with
    (@nil event, @Resolved (option (list (option (list (string * value))))) (Some [])).
  cbn [bind].
  destruct (collect_items keyValues 0 [] (Some []) []) as [items|e] eqn:Hcollect.
  - exists items. split; [done|]. intros k Hk.
    eapply collect_items_entry; [exact Hcollect | | by left].
    intros j _. by rewrite lookup_nil.
  - exfalso. clear Hkeys.
    assert (H : forall ks i acc, collect_items ks i [] (Some []) acc <> Rejected e).
    { induction ks as [|k ks IH]; intros i acc; [done|]. simpl. apply IH. }
    by apply (H keyValues 0 []).
Qed.

(** ** The deferred provider: a promise that resolves to a provider *)

Section DeferredMore.

Context {candidate params result event_t : Type}.
Variable isDataProvider : candidate -> bool.
Variable invoke : candidate -> Deferred.method -> option params -> outcome result.
Variable iterate : candidate -> option params -> nat -> outcome result.
Variable inner_isEmpty : candidate -> string.
Variable inner_dispatchEvent : candidate -> event_t -> bool.

Lemma getDataProvider_valid (this : Deferred.DeferredDataProvider candidate) dp :
  Deferred._dataProvider this = Resolved dp ->
  isDataProvider dp = true ->
  Deferred.dataProvider this = None \/ Deferred.dataProvider this = Some dp ->
  exists this',
    Deferred._getDataProvider isDataProvider this = (this', Resolved dp)
    /\ Deferred._dataProvider this' = Resolved dp
    /\ Deferred.dataProvider this' = Some dp.
Proof.
  intros Hdp Hvalid Hcached. unfold Deferred._getDataProvider.
  rewrite Hdp, Hvalid. destruct Hcached as [-> | Hsome].
  - eexists. split; [reflexivity|]. done.
  - rewrite Hsome. eexists. split; [reflexivity|]. done.
Qed.

(** X19: when the promise resolves to a data provider, each data method
    invokes the same operation once on that provider, with the caller's
    parameters, and resolves to what the provider's operation resolves to;
    [next] on the iterator of [fetchFirst] is the provider's own iterator;
    and the provider is stored on the instance. *)
Theorem deferred_passes_through (this : Deferred.DeferredDataProvider candidate) dp p :
  Deferred._dataProvider this = Resolved dp ->
  isDataProvider dp = true ->
  Deferred.dataProvider this = None \/ Deferred.dataProvider this = Some dp ->
  (forall m,
      Deferred.c_result (Deferred.forward isDataProvider invoke this m p) = invoke dp m p
      /\ Deferred.c_invoked (Deferred.forward isDataProvider invoke this m p) = [(m, p)]
      /\ Deferred.dataProvider
           (Deferred.c_this (Deferred.forward isDataProvider invoke this m p)) = Some dp)
  /\ Deferred.c_result (Deferred.fetchByKeys isDataProvider invoke this p)
     = invoke dp Deferred.FetchByKeys p
  /\ Deferred.c_result (Deferred.containsKeys isDataProvider invoke this p)
     = invoke dp Deferred.ContainsKeys p
  /\ Deferred.c_result (Deferred.fetchByOffset isDataProvider invoke this p)
     = invoke dp Deferred.FetchByOffset p
  /\ Deferred.c_result (Deferred.getTotalSize isDataProvider invoke this)
     = invoke dp Deferred.GetTotalSize None
  /\ Deferred.c_invoked (Deferred.fetchFirst isDataProvider iterate this p)
     = [(Deferred.FetchFirst, p)]
  /\ forall n,
      Deferred.next
        (Deferred.c_result (Deferred.fetchFirst isDataProvider iterate this p)) n
      = iterate dp p n.
Proof.
  intros Hdp Hvalid Hcached.
  destruct (getDataProvider_valid this dp Hdp Hvalid Hcached)
    as (this' & Hget & _ & Hstored).
  assert (Hforward : forall m q,
             Deferred.forward isDataProvider invoke this m q
             = Deferred.mkCall _ _ _ this' [(m, q)] (invoke dp m q)).
  { intros m q. unfold Deferred.forward. by rewrite Hget. }
  split; [intros m; by rewrite Hforward|].
  unfold Deferred.fetchByKeys, Deferred.containsKeys, Deferred.fetchByOffset,
    Deferred.getTotalSize, Deferred.fetchFirst.
  rewrite !Hforward, Hget. done.
Qed.

(** X20: when the promise is rejected, every data method is rejected with
    the promise's own error, nothing is invoked, and the instance stays as
    it was. *)
Theorem deferred_rejected_promise (this : Deferred.DeferredDataProvider candidate) e p :
  Deferred._dataProvider this = Rejected e ->
  (forall m,
      Deferred.forward isDataProvider invoke this m p
      = Deferred.mkCall _ _ _ this [] (Rejected e))
  /\ Deferred.fetchByKeys isDataProvider invoke this p
     = Deferred.mkCall _ _ _ this [] (Rejected e)
  /\ Deferred.containsKeys isDataProvider invoke this p
     = Deferred.mkCall _ _ _ this [] (Rejected e)
  /\ Deferred.fetchByOffset isDataProvider invoke this p
     = Deferred.mkCall _ _ _ this [] (Rejected e)
  /\ Deferred.getTotalSize isDataProvider invoke this
     = Deferred.mkCall _ _ _ this [] (Rejected e)
  /\ Deferred.fetchFirst isDataProvider iterate this p
     = Deferred.mkCall _ _ _ this [] (Rejected e)
  /\ forall n,
      Deferred.next
        (Deferred.c_result (Deferred.fetchFirst isDataProvider iterate this p)) n
      = Rejected e.
Proof.
  intros He.
  assert (Hget : Deferred._getDataProvider isDataProvider this = (this, Rejected e)).
  { unfold Deferred._getDataProvider. by rewrite He. }
  assert (Hforward : forall m q,
             Deferred.forward isDataProvider invoke this m q
             = Deferred.mkCall _ _ _ this [] (Rejected e)).
  { intros m q. unfold Deferred.forward. by rewrite Hget. }
  split; [done|].
  unfold Deferred.fetchByKeys, Deferred.containsKeys, Deferred.fetchByOffset,
    Deferred.getTotalSize, Deferred.fetchFirst.
  rewrite !Hforward, Hget. done.
Qed.

(** X21: [isEmpty] answers ['unknown'] and [dispatchEvent] answers [false]
    on an instance that has stored no provider, and they still do after a
    data method that failed (the promise was rejected, or resolved to a
    value that is no data provider); after a data method on a promise that
    resolved to a data provider they give that provider's own answers. *)
Theorem deferred_isEmpty_lifecycle (this : Deferred.DeferredDataProvider candidate) m p evt :
  Deferred.dataProvider this = None ->
  Deferred.isEmpty inner_isEmpty this = "unknown"
  /\ Deferred.dispatchEvent inner_dispatchEvent this evt = false
  /\ match Deferred._dataProvider this with
     | Resolved dp =>
         if isDataProvider dp then
           Deferred.isEmpty inner_isEmpty
             (Deferred.c_this (Deferred.forward isDataProvider invoke this m p))
           = inner_isEmpty dp
           /\ Deferred.dispatchEvent inner_dispatchEvent
                (Deferred.c_this (Deferred.forward isDataProvider invoke this m p)) evt
              = inner_dispatchEvent dp evt
         else
           Deferred.isEmpty inner_isEmpty
             (Deferred.c_this (Deferred.forward isDataProvider invoke this m p))
           = "unknown"
           /\ Deferred.dispatchEvent inner_dispatchEvent
                (Deferred.c_this (Deferred.forward isDataProvider invoke this m p)) evt
              = false
     | Rejected _ =>
         Deferred.isEmpty inner_isEmpty
           (Deferred.c_this (Deferred.forward isDataProvider invoke this m p))
         = "unknown"
         /\ Deferred.dispatchEvent inner_dispatchEvent
              (Deferred.c_this (Deferred.forward isDataProvider invoke this m p)) evt
            = false
     end.
Proof.
  intros Hnone. unfold Deferred.isEmpty, Deferred.dispatchEvent, Deferred.forward,
    Deferred._getDataProvider.
  rewrite Hnone. split; [done|]. split; [done|].
  destruct (Deferred._dataProvider this) as [dp|e]; simpl.
  - destruct (isDataProvider dp); simpl; by rewrite ?Hnone.
  - by rewrite Hnone.
Qed.

End DeferredMore.

(** ** The result arrays *)

Lemma overwrite_prefix_lookup {A : Type} (new old : list A) j :
  overwrite_prefix new old !! j
  = if decide (j < length new) then new !! j else old !! j.
Proof.
  unfold overwrite_prefix. case_decide.
  - by apply lookup_app_l.
  - rewrite lookup_app_r, lookup_drop; [|lia]. f_equal. lia.
Qed.

Lemma length_overwrite_prefix {A : Type} (new old : list A) :
  length (overwrite_prefix new old) = max (length new) (length old).
Proof. unfold overwrite_prefix. rewrite length_app, length_drop. lia. Qed.

(** X22: [_fetchByKeyResultsToArray] leaves both arrays as they are when
    the result is missing, has no [results], or its [results] are empty;
    it throws when there are results but no keys; otherwise it overwrites
    the first entries of both arrays, one per key, with the metadata and data
    of the item found for the key, or with [null], keeps the entries after
    them, and never shortens an array. *)
Theorem fetchByKeyResultsToArray_writes {D : Type} (null : D) result keyValues
    metaData (rows : list D) :
  (result_content result = None ->
   _fetchByKeyResultsToArray null result keyValues metaData rows
   = Resolved (metaData, rows))
  /\ (forall m, result_content result = Some m -> keyValues = None ->
        _fetchByKeyResultsToArray null result keyValues metaData rows
        = Rejected (TypeError "keyValues.length"))
  /\ (forall m ks, result_content result = Some m -> keyValues = Some ks ->
        exists metaData' rows',
          _fetchByKeyResultsToArray null result keyValues metaData rows
          = Resolved (metaData', rows')
          /\ length metaData' = max (length ks) (length metaData)
          /\ length rows' = max (length ks) (length rows)
          /\ forall j,
              (metaData' !! j
               = if decide (j < length ks)
                 then (fun k => from_option metadata VNull (keymap_get m k)) <$> ks !! j
                 else metaData !! j)
              /\ (rows' !! j
                  = if decide (j < length ks)
                    then (fun k => from_option data null (keymap_get m k)) <$> ks !! j
                    else rows !! j)).
Proof.
  unfold result_content, _fetchByKeyResultsToArray.
  destruct result as [[[[|e m']|]]|]; cbn [mbind option_bind results];
    (split; [try done | split; [intros m; try done | intros m ks; try done]]).
  - by intros _ ->.
  - intros [= <-] ->. eexists _, _. split; [reflexivity|].
    rewrite !length_overwrite_prefix, !length_map. split; [done|]. split; [done|].
    intros j. rewrite !overwrite_prefix_lookup, !length_map, !lookup_map.
    case_decide; [|done].
    destruct (ks !! j) as [k|]; [|done]. cbn [fmap option_fmap option_map].
    by destruct (keymap_get (e :: m') k) as [[? ?]|].
Qed.

(** ** The iterator of [fetchFirst] *)

(** X23: [next] passes on, without any fetch, a rejection of the base
    iterator and a step that has no value (the end of the iteration); for a
    step with a page it keeps the [done] flag and the metadata, and the rows
    are what the join step makes of the page: as many rows, null where the
    page has null. *)
Theorem next_joins_each_page this sch baseIterator n :
  match baseIterator n with
  | Rejected e => next this sch baseIterator n = ([], Rejected e)
  | Resolved None => next this sch baseIterator n = ([], Resolved None)
  | Resolved (Some (mkIteratorResult done None)) =>
      next this sch baseIterator n
      = ([], Resolved (Some (mkIteratorResult done None)))
  | Resolved (Some (mkIteratorResult done (Some v))) =>
      (next this sch baseIterator n).1
      = (_joiningData this sch (fl_data v) (options this)).1
      /\ forall r,
          (next this sch baseIterator n).2 = Resolved r ->
          exists joined,
            r = Some (mkIteratorResult done
                        (Some (mkFetchListResult joined (fl_metadata v))))
            /\ (_joiningData this sch (fl_data v) (options this)).2 = Resolved joined
            /\ forall rows,
                fl_data v = Some rows ->
                exists rows',
                  joined = Some rows'
                  /\ length rows' = length rows
                  /\ forall j, is_null_row <$> rows' !! j = is_null_row <$> rows !! j
  end.
Proof.
  unfold next. destruct (baseIterator n) as [[[done [v|]]|]|e];
    [|reflexivity..].
  destruct (_joiningData this sch (fl_data v) (options this)) as [log joined] eqn:Hjoin.
  split; [done|]. cbn [snd]. intros r Hr.
  destruct joined as [joinedData|e]; [|done]. cbn [bind] in Hr. simplify_eq.
  exists joinedData. split; [done|]. split; [done|].
  intros rows Hrows. rewrite Hrows in Hjoin.
  destruct (joiningData_frame _ _ _ _ _ _ Hjoin)
    as (rows' & -> & Hlen & Hnull & _).
  by exists rows'.
Qed.

(** ** A request that names no join alias *)

Lemma unjoined_items items :
  map (fun k => mkItem (array_get (map metadata items) k)
                       (match map data items !! k with
                        | Some r => row_value r
                        | None => VUndefined
                        end)) (seq 0 (length items))
  = map unjoined_item items.
Proof.
  rewrite <- (length_map unjoined_item items). apply map_seq_lookup.
  intros k x. unfold array_get. rewrite !lookup_map.
  destruct (items !! k) as [item|]; simpl; [|done]. by intros [= <-].
Qed.

(** X24: when the attributes of an offset fetch name no join alias (an
    empty list, or base fields only), the partition completes, every joined
    provider is there, the base provider resolves to items, and no other
    fetch is started on the provider before the result is delivered, then
    [fetchByOffset] fetches nothing from the joined providers and resolves to
    the base items with their rows as they are, and the base provider's
    [done] flag. *)
Theorem fetchByOffset_no_alias_requested base this st l p origAttr this' baseAttributes
    items done settle :
  st !! l = Some p ->
  Params.attributes p = Some origAttr ->
  _seperateBaseJoinAttributes this origAttr = (this', Resolved baseAttributes) ->
  (forall alias a, alias ∈ _joinAlias this -> a ∈ origAttr -> names alias a = false) ->
  (forall i, i < length (_joinAlias this) -> is_Some (mjoin (_joinDPs this !! i))) ->
  (forall q, base_fetchByOffset base q
             = Resolved (Some (mkBaseByOffset (Some items) done))) ->
  c_result (fetchByOffset base this st (Some l) None (mkSchedule settle None))
  = Resolved (Some (mkJoinedByOffset (Some l) (map unjoined_item items) done))
  /\ fetched_aliases
       (c_log (fetchByOffset base this st (Some l) None (mkSchedule settle None))) = [].
Proof.
  intros Hl Hattr Hsep Hnames Hpresent Hbase.
  destruct (partition_map_domain _ _ _ _ Hsep) as (m & Hm & Hdom).
  assert (Hthis : _joinAlias this' = _joinAlias this /\ _joinDPs this' = _joinDPs this).
  { unfold _seperateBaseJoinAttributes in Hsep.
    destruct (classify_loop _ _ _) as [q [e|]]; by simplify_eq. }
  destruct Hthis as [Halias Hdps].
  assert (Hnone : forall a, a ∈ _joinAlias this' -> m !! a = None).
  { intros a Ha. rewrite Halias in Ha.
    destruct (m !! a) eqn:Hma; [|done].
    destruct (proj1 (Hdom a)) as (_ & b & Hb & Hn); [by eexists|].
    by rewrite (Hnames a b Ha Hb) in Hn. }
  destruct (joiningData_none_requested this' (mkSchedule settle None)
              (map data items) (options this') m Hm Hnone)
    as [Hfetched Hjoined].
  { intros a Ha. simpl. unfold alias_requested. rewrite Hm, (Hnone a Ha).
    apply bool_decide_eq_false. by intros [? ?]. }
  { by rewrite Halias, Hdps. }
  unfold fetchByOffset, requested_attributes, deref. simpl. rewrite Hl. simpl.
  rewrite Hattr. simpl. rewrite Hsep, Hbase. unfold fetchByOffset_then.
  destruct (_joiningData this' (mkSchedule settle None) (Some (map data items))
                         (options this'))
    as [log joined]. simpl in Hfetched, Hjoined. subst joined.
  cbn [bind]. rewrite collect_array_spec, unjoined_items.
  split; [done|]. rewrite <- Hfetched. reflexivity.
Qed.

(** ** The further properties on the sample data *)

Lemma getFKValues_with_transform_witness :
  _getFKValues employees [Some (FKField "deptId")] [Some wrap_deptId] !! 0 ≫= (.!! 0)
  = Some (VArr [VNum 10]).
Proof.
  exact (proj1 (getFKValues_with_transform employees [Some (FKField "deptId")]
                  [Some wrap_deptId] 0 0 (FKField "deptId") wrap_deptId
                  [("id", VNum 1); ("deptId", VNum 10); ("mgrId", VNum 7)]
                  eq_refl eq_refl eq_refl)).
Defined.

Lemma joiningData_keeps_base_fields_witness :
  length employees_joined = length employees
  /\ row_prop "id" <$> employees_joined !! 0 = row_prop "id" <$> employees !! 0.
Proof.
  destruct (joiningData_keeps_base_fields joining_dept in_turn employees joins_dept
              (_joiningData joining_dept in_turn (Some employees) joins_dept).1
              (Some employees_joined) eq_refl)
    as (rows' & Hrows & Hlen & _ & Hframe).
  injection Hrows as <-. split; [exact Hlen|].
  apply Hframe. intros Hin. apply list_elem_of_singleton in Hin. discriminate.
Defined.

Lemma joiningData_skips_unrequested_alias_witness :
  ("dept" ∉ fetched_aliases
              (_joiningData joining_dept_unrequested in_turn (Some employees)
                            joins_dept).1)
  /\ exists rows',
      Some employees = Some rows'
      /\ forall j, row_prop "dept" <$> rows' !! j = row_prop "dept" <$> employees !! j.
Proof.
  destruct (joiningData_skips_unrequested_alias joining_dept_unrequested in_turn
              employees joins_dept ∅ "dept" eq_refl (lookup_empty _) eq_refl)
    as [Hfetch Hrows].
  split; [exact Hfetch|]. apply Hrows. reflexivity.
Defined.

Lemma joiningData_nothing_requested_witness :
  fetched_aliases
    (_joiningData joining_dept_unrequested in_turn (Some employees) joins_dept).1
  = []
  /\ (_joiningData joining_dept_unrequested in_turn (Some employees) joins_dept).2
     = Resolved (Some employees).
Proof.
  apply (joiningData_nothing_requested joining_dept_unrequested in_turn employees
           joins_dept ∅).
  - reflexivity.
  - intros a _. apply lookup_empty.
  - intros a Ha. apply list_elem_of_singleton in Ha. subst a. reflexivity.
  - intros [|i] Hi; [by eexists | simpl in Hi; lia].
Defined.

Lemma joiningData_one_fetch_per_alias_witness :
  fetched_aliases
    (_joiningData joining_dept_mgr in_turn (Some employees) joins_dept_mgr).1
  = ["dept"; "mgr"].
Proof.
  refine (proj1 (joiningData_one_fetch_per_alias joining_dept_mgr in_turn employees
                   joins_dept_mgr _ _ _ _)).
  - discriminate.
  - discriminate.
  - intros [|[|i]] Hi; [by eexists | by eexists | simpl in Hi; lia].
  - simpl. lia.
Defined.


(** Both fetches are rejected; the fetch of [mgr], declared second,
    settles first, and its error is the one passed on. *)
Lemma joiningData_propagates_rejection_witness :
  (_joiningData joining_late_offline mgr_first (Some employees) joins_late_offline).2
  = Rejected offline.
Proof.
  apply (joiningData_propagates_rejection joining_late_offline mgr_first employees
           joins_late_offline 1 "mgr" rejecting_provider
           (mkJoinFetch (Some [VNum 7; VNum 7]) None) offline).
  - discriminate.
  - discriminate.
  - intros [|[|i]] Hi; [by eexists | by eexists | simpl in Hi; lia].
  - reflexivity.
  - reflexivity.
  - reflexivity.
  - reflexivity.
  - intros [|[|k]] a' dp' req' e' Hk Ha' Hdp' Hreq' Hrej'.
    + left. simpl. lia.
    + done.
    + discriminate.
Defined.

Lemma joiningData_joined_values_witness :
  exists r',
    employees_joined !! 0 = Some (Some r')
    /\ has_field r' "dept" = true
    /\ get_field r' "dept" = joined_value departments_found (VNum 10).
Proof.
  apply (joiningData_joined_values joining_dept in_turn employees joins_dept
           (_joiningData joining_dept in_turn (Some employees) joins_dept).1
           employees_joined 0 "dept" (table_provider departments)
           (mkJoinFetch (Some [VNum 10; VNull]) None) departments_found)
    with (r := [("id", VNum 1); ("deptId", VNum 10); ("mgrId", VNum 7)]).
  - apply NoDup_singleton.
  - discriminate.
  - discriminate.
  - reflexivity.
  - reflexivity.
  - reflexivity.
  - reflexivity.
  - reflexivity.
  - discriminate.
  - reflexivity.
  - reflexivity.
  - reflexivity.
Defined.

Lemma seperateBaseJoinAttributes_map_domain_witness :
  exists m,
    _mapJoinAttributes
      (_seperateBaseJoinAttributes joining_dept_mgr [AName "id"; AName "dept"]).1
    = Some m
    /\ forall alias,
        is_Some (m !! alias)
        <-> bJoinAlias alias (_joinAlias joining_dept_mgr) = true
            /\ exists a, a ∈ [AName "id"; AName "dept"] /\ names alias a = true.
Proof.
  apply (seperateBaseJoinAttributes_map_domain joining_dept_mgr
           [AName "id"; AName "dept"]
           (_seperateBaseJoinAttributes joining_dept_mgr [AName "id"; AName "dept"]).1
           [AName "id"; AName "deptId"; AName "mgrId"]).
  reflexivity.
Defined.

Lemma fetchByOffset_then_items_witness :
  exists out rows',
    Some joined_offset = Some out
    /\ jo_fetchParameters out = Some 0
    /\ jo_done out = true
    /\ (_joiningData joining_dept in_turn (Some (map data employee_items))
                     (options joining_dept)).2
       = Resolved (Some rows')
    /\ length (jo_results out) = length employee_items
    /\ map metadata (jo_results out) = map metadata employee_items
    /\ map data (jo_results out) = map row_value rows'.
Proof.
  apply (fetchByOffset_then_items joining_dept in_turn (Some 0) employee_items true
           (fetchByOffset_then joining_dept in_turn (Some 0)
              (Some (mkBaseByOffset (Some employee_items) true))).1).
  reflexivity.
Defined.

Lemma fetch_without_attributes_witness :
  c_store (fetchFirst (table_base employee_table) joining_dept
             {[0 := params_keys]} (Some 0)) = {[0 := params_keys]}
  /\ c_store (fetchByKeys (table_base employee_table) joining_dept
                {[0 := params_keys]} (Some 0) None in_turn) = {[0 := params_keys]}
  /\ c_store (fetchByOffset (table_base employee_table) joining_dept
                {[0 := params_keys]} (Some 0) None in_turn) = {[0 := params_keys]}.
Proof.
  destruct (fetch_without_attributes (table_base employee_table) joining_dept
              {[0 := params_keys]} (Some 0) None in_turn)
    as ((H1 & _) & (H2 & _) & (H3 & _)); [reflexivity|].
  split; [exact H1|]. split; [exact H2 | exact H3].
Defined.

Lemma fetch_propagates_base_rejection_witness :
  c_result (fetchByKeys rejecting_base joining_dept {[0 := params_id_dept]} (Some 0)
              None in_turn)
  = Rejected offline
  /\ c_result (fetchByOffset rejecting_base joining_dept {[0 := params_id_dept]} (Some 0)
                 None in_turn)
     = Rejected offline.
Proof.
  destruct (fetch_propagates_base_rejection rejecting_base joining_dept
              {[0 := params_id_dept]} (Some 0) None in_turn offline)
    as [Hkeys Hoffset].
  - reflexivity.
  - reflexivity.
  - split.
    + apply Hkeys. vm_compute. discriminate.
    + apply Hoffset. vm_compute. discriminate.
Defined.

Lemma fetchByKeys_then_empty_result_witness :
  exists items,
    fetchByKeys_then joining_dept in_turn (Some 0) (Some params_keys)
                     (Some (mkFetchByKeysResults (Some [])))
    = ([], Resolved (Some (mkJoinedByKeys (Some 0) items)))
    /\ forall k, k ∈ [VNum 1; VNum 2] ->
         keymap_get items k = Some (mkItem VUndefined VUndefined).
Proof.
  apply (fetchByKeys_then_empty_result joining_dept in_turn (Some 0) params_keys
           [VNum 1; VNum 2]).
  reflexivity.
Defined.

Lemma deferred_passes_through_witness :
  Deferred.c_result (Deferred.fetchByKeys has_fetchFirst echo deferred_provider None)
  = Resolved some_provider
  /\ Deferred.c_invoked (Deferred.fetchFirst has_fetchFirst
                           (fun v p n => echo v Deferred.FetchFirst p)
                           deferred_provider None)
     = [(Deferred.FetchFirst, None)].
Proof.
  destruct (deferred_passes_through has_fetchFirst echo
              (fun v p n => echo v Deferred.FetchFirst p)
              deferred_provider some_provider None eq_refl eq_refl
              (or_introl eq_refl))
    as (_ & Hkeys & _ & _ & _ & Hfirst & _).
  split; [exact Hkeys | exact Hfirst].
Defined.

Lemma deferred_rejected_promise_witness :
  Deferred.fetchByKeys has_fetchFirst echo deferred_rejected None
  = Deferred.mkCall _ _ _ deferred_rejected [] (Rejected offline).
Proof.
  exact (proj1 (proj2 (deferred_rejected_promise has_fetchFirst echo
                         (fun v p n => echo v Deferred.FetchFirst p)
                         deferred_rejected offline None eq_refl))).
Defined.

Lemma deferred_isEmpty_lifecycle_witness :
  Deferred.isEmpty always_no deferred_provider = "unknown"
  /\ Deferred.isEmpty always_no
       (Deferred.c_this (Deferred.forward has_fetchFirst echo deferred_provider
                           Deferred.GetTotalSize None))
     = "no".
Proof.
  destruct (deferred_isEmpty_lifecycle has_fetchFirst echo always_no always_handled
              deferred_provider Deferred.GetTotalSize None VNull eq_refl)
    as (Hbefore & _ & Hafter).
  split; [exact Hbefore | exact (proj1 Hafter)].
Defined.

Lemma fetchByOffset_no_alias_requested_witness :
  c_result (fetchByOffset (table_base employee_table) joining_dept
              {[0 := params_only_id]} (Some 0) None in_turn)
  = Resolved (Some (mkJoinedByOffset (Some 0) (map unjoined_item employee_items) true))
  /\ fetched_aliases (c_log (fetchByOffset (table_base employee_table) joining_dept
                               {[0 := params_only_id]} (Some 0) None in_turn)) = [].
Proof.
  apply (fetchByOffset_no_alias_requested (table_base employee_table) joining_dept
           {[0 := params_only_id]} 0 params_only_id [AName "id"]
           (_seperateBaseJoinAttributes joining_dept [AName "id"]).1
           [AName "id"; AName "deptId"] employee_items true (fun _ => 0)).
  - reflexivity.
  - reflexivity.
  - reflexivity.
  - intros alias a Halias Ha.
    apply list_elem_of_singleton in Halias. apply list_elem_of_singleton in Ha.
    subst. reflexivity.
  - intros [|i] Hi; [by eexists | simpl in Hi; lia].
  - reflexivity.
Defined.

Lemma joiningData_overlapping_fetch_assigns_unfetched_alias_witness :
  ("dept" ∉ fetched_aliases
              (_joiningData joining_dept_unrequested unfiltered_meanwhile
                            (Some employees) joins_dept).1)
  /\ exists r',
      employees_dept_undefined !! 0 = Some (Some r') /\ has_field r' "dept" = true.
Proof.
  destruct (joiningData_overlapping_fetch_assigns_unfetched_alias
              joining_dept_unrequested unfiltered_meanwhile employees joins_dept ∅
              (_joiningData joining_dept_unrequested unfiltered_meanwhile
                            (Some employees) joins_dept).1
              employees_dept_undefined 0 "dept")
    as [Hfetch Hassigned].
  - apply NoDup_singleton.
  - discriminate.
  - discriminate.
  - reflexivity.
  - reflexivity.
  - apply lookup_empty.
  - reflexivity.
  - reflexivity.
  - split; [exact Hfetch|].
    apply (Hassigned 0 [("id", VNum 1); ("deptId", VNum 10); ("mgrId", VNum 7)]).
    reflexivity.
Defined.
